(** * concurrent-resource: a shallow embedding of the lock-guarded accessors

    The development follows the headers of the library:

    - [Traits]: the capability concepts of [concurrent.hpp]
      ([basic_lockable] ... [shared_timed_lockable]) as boolean predicates
      over a description of the candidate type's member functions, the
      constraints the templates put on their lockable parameter, and the
      public member functions of the two wrappers;
    - [Backend]: the reader-writer primitive and the two RAII guards the
      wrappers are instantiated with ([std::shared_mutex],
      [std::shared_lock], [std::unique_lock]);
    - [Special]: which copy and move operations an accessor class gets;
    - [Concurrent]: [accessor] and [concurrent] of [concurrent.hpp];
    - [ConcurrentResource]: [detail::accessor] and [concurrent_resource] of
      [concurrent_resource.hpp];
    - [Refinement]: the renaming that reads the second as the first.

    Threads are modelled by interleaving: a run is a sequence of requests,
    each labelled with the thread that issues it; a request that has to wait
    for the lock is [Blocks] and cannot be the next event of a run.  The
    proofs follow: an invariant of the request machine ([Protocol]), the
    simulation between the wrappers ([Simulation]), and the properties of
    the wrappers. *)

From stdpp Require Import base decidable option list numbers strings gmap fin_maps.

Set Default Proof Using "Type".

(* ===================================================================== *)
(** ** Capability concepts ([concurrent.hpp], lines 29-158)               *)
(* ===================================================================== *)

Module Traits.

(** The member functions the requires-expressions name. *)
Inductive member_fn :=
  | fn_lock | fn_unlock | fn_try_lock
  | fn_try_lock_for | fn_try_lock_until
  | fn_lock_shared | fn_unlock_shared | fn_try_lock_shared
  | fn_try_lock_shared_for | fn_try_lock_shared_until.

(** The type of a call expression, as far as [std::same_as] tells them
    apart. *)
Inductive ret := r_void | r_bool | r_other.

(** A candidate type [T] is described by the type of [a.f(...)] for each of
    the calls above, written with the arguments the concept uses; [None]
    when the expression is ill-formed for [T]. *)
Definition candidate := member_fn → option ret.

Definition ret_eqb (x y : ret) : bool :=
  match x, y with
  | r_void, r_void | r_bool, r_bool | r_other, r_other => true
  | _, _ => false
  end.

(** [{ a.f() } -> std::same_as<R>;] *)
Definition compound_req (T : candidate) (f : member_fn) (R : ret) : bool :=
  match T f with
  | Some R' => ret_eqb R R'
  | None => false
  end.

Definition basic_lockable (T : candidate) : bool :=
  compound_req T fn_lock r_void && compound_req T fn_unlock r_void.

Definition lockable (T : candidate) : bool :=
  basic_lockable T && compound_req T fn_try_lock r_bool.

Definition timed_lockable (T : candidate) : bool :=
  lockable T &&
  (compound_req T fn_try_lock_for r_bool &&
   compound_req T fn_try_lock_until r_bool).

Definition basic_shared_lockable (T : candidate) : bool :=
  basic_lockable T &&
  (compound_req T fn_lock_shared r_void &&
   compound_req T fn_unlock_shared r_void).

Definition shared_lockable (T : candidate) : bool :=
  basic_shared_lockable T && compound_req T fn_try_lock_shared r_bool.

Definition shared_timed_lockable (T : candidate) : bool :=
  shared_lockable T &&
  (compound_req T fn_try_lock_shared_for r_bool &&
   compound_req T fn_try_lock_shared_until r_bool).

(** *** Some candidate types *)

(** [std::shared_mutex]: exclusive and shared locking with try variants, no
    timed ones. *)
Definition std_shared_mutex : candidate := λ f,
  match f with
  | fn_lock | fn_unlock | fn_lock_shared | fn_unlock_shared => Some r_void
  | fn_try_lock | fn_try_lock_shared => Some r_bool
  | _ => None
  end.

(** [std::shared_timed_mutex]: everything. *)
Definition std_shared_timed_mutex : candidate := λ f,
  match f with
  | fn_lock | fn_unlock | fn_lock_shared | fn_unlock_shared => Some r_void
  | _ => Some r_bool
  end.

(** [std::mutex]: exclusive locking only. *)
Definition std_mutex : candidate := λ f,
  match f with
  | fn_lock | fn_unlock => Some r_void
  | fn_try_lock => Some r_bool
  | _ => None
  end.

(** [std::timed_mutex]. *)
Definition std_timed_mutex : candidate := λ f,
  match f with
  | fn_lock | fn_unlock => Some r_void
  | fn_try_lock | fn_try_lock_for | fn_try_lock_until => Some r_bool
  | _ => None
  end.

(** A spin lock with [lock] and [unlock] alone. *)
Definition bare_lock : candidate := λ f,
  match f with
  | fn_lock | fn_unlock => Some r_void
  | _ => None
  end.

(** A reader-writer lock without any try variant. *)
Definition bare_shared_lock : candidate := λ f,
  match f with
  | fn_lock | fn_unlock | fn_lock_shared | fn_unlock_shared => Some r_void
  | _ => None
  end.

(** [int] has no member functions. *)
Definition plain_int : candidate := λ _, None.

(** *** Templates with a lock parameter *)

(** The guard templates a lockable is locked through. *)
Inductive guard_template := use_shared_lock | use_unique_lock.

(** What the guards call on the lockable: [std::shared_lock] locks with
    [lock_shared] and releases with [unlock_shared], [std::unique_lock] with
    [lock] and [unlock]. *)
Definition guard_calls (g : guard_template) : list member_fn :=
  match g with
  | use_shared_lock => [fn_lock_shared; fn_unlock_shared]
  | use_unique_lock => [fn_lock; fn_unlock]
  end.

(** The templates of the two headers that take the lockable as a
    parameter, with the guard templates they are given:
    [accessor<_, LockableType, LockType>],
    [shared_accessor<_, LockableType, LockType>],
    [exclusive_accessor<_, LockableType, LockType>],
    [concurrent<_, LockableType, SharedLockType, ExclusiveLockType>] of
    [concurrent.hpp], and the [lockable<SharedMutexType>] mix-in of
    [concurrent_resource.hpp]. *)
Inductive template :=
  | tpl_accessor (g : guard_template)
  | tpl_shared_accessor (g : guard_template)
  | tpl_exclusive_accessor (g : guard_template)
  | tpl_concurrent (gs ge : guard_template)
  | tpl_lockable.

(** What a template head can say about its lockable parameter. *)
Inductive concept := unconstrained | is_basic_lockable | is_basic_shared_lockable.

(** The constraint written on the lockable parameter: the alias templates
    and [concurrent] name a concept in place of [typename]; [accessor] and
    [lockable] say [typename]. *)
Definition constraint (c : template) : concept :=
  match c with
  | tpl_accessor _ => unconstrained
  | tpl_shared_accessor _ => is_basic_shared_lockable
  | tpl_exclusive_accessor _ => is_basic_lockable
  | tpl_concurrent _ _ => is_basic_shared_lockable
  | tpl_lockable => unconstrained
  end.

Definition satisfies (k : concept) (L : candidate) : bool :=
  match k with
  | unconstrained => true
  | is_basic_lockable => basic_lockable L
  | is_basic_shared_lockable => basic_shared_lockable L
  end.

(** The member functions the requires-expressions of a concept name, those
    of the concept it builds on included. *)
Definition names (k : concept) : list member_fn :=
  match k with
  | unconstrained => []
  | is_basic_lockable => [fn_lock; fn_unlock]
  | is_basic_shared_lockable =>
      [fn_lock; fn_unlock; fn_lock_shared; fn_unlock_shared]
  end.

(** The calls on the lockable that the code of a template makes when its
    members run: an accessor constructs and destroys its guard,
    [concurrent] hands out both kinds of accessor, and the [lockable] mix-in
    only stores the primitive. *)
Definition calls (c : template) : list member_fn :=
  match c with
  | tpl_accessor g | tpl_shared_accessor g | tpl_exclusive_accessor g =>
      guard_calls g
  | tpl_concurrent gs ge => guard_calls gs ++ guard_calls ge
  | tpl_lockable => []
  end.

(** The call [a.f()] is well-formed for [L]: all a guard needs of it. *)
Definition provides (L : candidate) (f : member_fn) : bool :=
  match L f with Some _ => true | None => false end.

Inductive verdict := Accepted | Rejected_by_constraint | Rejected_in_body.

(** Translating an instantiation with lockable [L] and the members that
    lock: the constraint is checked where the template is named, the calls
    where the member bodies are instantiated; both happen in the
    compiler. *)
Definition instantiate (c : template) (L : candidate) : verdict :=
  if satisfies (constraint c) L then
    if forallb (provides L) (calls c) then Accepted else Rejected_in_body
  else Rejected_by_constraint.

(** The instantiations the library makes itself: [concurrent] with the
    defaults of [concurrent_stl.hpp] and [concurrent_boost.hpp] (a shared
    guard for reading, a unique guard for writing), and inside it
    [shared_accessor_t] and [exclusive_accessor_t]. *)
Definition library_use (c : template) : bool :=
  match c with
  | tpl_shared_accessor use_shared_lock
  | tpl_exclusive_accessor use_unique_lock
  | tpl_concurrent use_shared_lock use_unique_lock => true
  | _ => false
  end.

(** *** Public member functions of the wrappers *)

Inductive result_type := res_shared_accessor | res_exclusive_accessor | res_bool.

Record member_decl := {
  md_name : string;
  md_result : result_type;
  md_noexcept : bool;
  md_const : bool
}.

(** [concurrent] (lines 347-358): the member list is the same for every
    instantiation, no member is guarded by a requires-clause on the
    lockable. *)
Definition concurrent_members (L : candidate) : list member_decl :=
  [ {| md_name := "read_access_handle"; md_result := res_shared_accessor;
       md_noexcept := true; md_const := true |};
    {| md_name := "write_access_handle"; md_result := res_exclusive_accessor;
       md_noexcept := true; md_const := false |} ].

(** [concurrent_resource] (lines 202-229); its lockable is fixed to
    [shared_mutex_t]. *)
Definition concurrent_resource_members : list member_decl :=
  [ {| md_name := "read_access"; md_result := res_shared_accessor;
       md_noexcept := true; md_const := true |};
    {| md_name := "write_access"; md_result := res_exclusive_accessor;
       md_noexcept := true; md_const := false |};
    {| md_name := "unsafe_read_access"; md_result := res_shared_accessor;
       md_noexcept := true; md_const := true |};
    {| md_name := "unsafe_write_access"; md_result := res_exclusive_accessor;
       md_noexcept := true; md_const := false |} ].

Definition reports_bool (d : member_decl) : bool :=
  match md_result d with res_bool => true | _ => false end.

(** The entry points that answer with a success flag. *)
Definition bounded_wait_entry_points (ms : list member_decl) : list member_decl :=
  filter (λ d, reports_bool d = true) ms.

End Traits.

(* ===================================================================== *)
(** ** The backing primitive and its guards                               *)
(* ===================================================================== *)

Module Backend.

(** What a call can do in an interleaving: return, wait for the lock, or
    have no defined behaviour (a precondition of the primitive or of the
    language is broken). *)
Inductive outcome (A : Type) :=
  | Returns (a : A)
  | Blocks
  | Undefined.
Global Arguments Returns {A} a.
Global Arguments Blocks {A}.
Global Arguments Undefined {A}.

Global Instance outcome_bind : MBind outcome := λ A B k x,
  match x with
  | Returns a => k a
  | Blocks => Blocks
  | Undefined => Undefined
  end.

(** Modelled from the spec: the reader-writer primitive ([std::shared_mutex],
    [shared_mutex_t]) is an external collaborator of the library; its states
    and transitions are the state machine of section 4.3.  [SharedLocked n]
    is held by [n] readers, [n >= 1]. *)
Inductive shared_mutex :=
  | Unlocked
  | SharedLocked (n : nat)
  | ExclusiveLocked.

(** Modelled from the spec: [acquire_shared] of section 4.3. *)
Definition lock_shared (m : shared_mutex) : outcome shared_mutex :=
  match m with
  | Unlocked => Returns (SharedLocked 1)
  | SharedLocked n => Returns (SharedLocked (S n))
  | ExclusiveLocked => Blocks
  end.

(** Modelled from the spec: [release_shared] of section 4.3; releasing a
    primitive that is not held in shared mode is undefined. *)
Definition unlock_shared (m : shared_mutex) : outcome shared_mutex :=
  match m with
  | SharedLocked 1 => Returns Unlocked
  | SharedLocked (S (S n)) => Returns (SharedLocked (S n))
  | _ => Undefined
  end.

(** Modelled from the spec: [acquire_exclusive] of section 4.3. *)
Definition lock (m : shared_mutex) : outcome shared_mutex :=
  match m with
  | Unlocked => Returns ExclusiveLocked
  | SharedLocked _ | ExclusiveLocked => Blocks
  end.

(** Modelled from the spec: [release_exclusive] of section 4.3. *)
Definition unlock (m : shared_mutex) : outcome shared_mutex :=
  match m with
  | ExclusiveLocked => Returns Unlocked
  | _ => Undefined
  end.

(** The guard templates: [std::shared_lock] for [read_lock] and
    [SharedLockType], [std::unique_lock] for [write_lock] and
    [ExclusiveLockType]. *)
Inductive flavour := shared_lock | unique_lock.

Global Instance flavour_eq_dec : EqDecision flavour.
Proof. solve_decision. Defined.

(** A guard object: whether it owns a hold of the primitive, and, as ghost
    state, which acquisition the hold stems from. *)
Record guard := {
  g_flavour : flavour;
  g_owns : bool;
  g_hold : nat
}.

(** [LockType(mtx)]: lock, then own. *)
Definition guard_lock (fl : flavour) (hold : nat) (m : shared_mutex)
  : outcome (shared_mutex * guard) :=
  m' ← match fl with shared_lock => lock_shared m | unique_lock => lock m end;
  Returns (m', {| g_flavour := fl; g_owns := true; g_hold := hold |}).

(** What a move leaves behind: a guard that owns nothing. *)
Definition moved_from (g : guard) : guard :=
  {| g_flavour := g_flavour g; g_owns := false; g_hold := g_hold g |}.

(** [~LockType()]: release if owning. *)
Definition guard_destroy (g : guard) (m : shared_mutex) : outcome shared_mutex :=
  if g_owns g then
    match g_flavour g with
    | shared_lock => unlock_shared m
    | unique_lock => unlock m
    end
  else Returns m.

(** A reference to the wrapper's [resource] member, the only object the
    wrappers bind references to: [const NonConcurrentType&] or
    [NonConcurrentType&]. *)
Record reference := { ref_const : bool }.

(** A raw pointer to the same object. *)
Record pointer := { ptr_const : bool }.

(** [&r] for a reference [r]: the address of the referent. *)
Definition address_of (r : reference) : pointer :=
  {| ptr_const := ref_const r |}.

Global Instance outcome_fmap : FMap outcome := λ A B f x,
  match x with
  | Returns a => Returns (f a)
  | Blocks => Blocks
  | Undefined => Undefined
  end.

(** The primitive's state agrees with [ns] shared and [nx] exclusive guards
    held. *)
Definition agrees (m : shared_mutex) (ns nx : nat) : Prop :=
  match m with
  | Unlocked => ns = 0 ∧ nx = 0
  | SharedLocked n => n = ns ∧ 1 ≤ n ∧ nx = 0
  | ExclusiveLocked => ns = 0 ∧ nx = 1
  end.

(** The three regimes of the global invariant (section 3). *)
Inductive regime := no_guards | shared_guards | one_exclusive_guard.

Definition in_regime (g : regime) (ns nx : nat) : Prop :=
  match g with
  | no_guards => ns = 0 ∧ nx = 0
  | shared_guards => 1 ≤ ns ∧ nx = 0
  | one_exclusive_guard => nx = 1 ∧ ns = 0
  end.

(** A class type as far as member selection goes: the names of its own
    members, and, for a pointer-like class, the members of what it points
    to (reached by the class's own [operator->]). *)
Record class_info := {
  own_members : list string;
  pointee_members : option (list string)
}.

(** The built-in [p->m] on a raw pointer [p] to an object of class [K]
    selects member [m] of the object pointed to: [m] is looked up among the
    members of [K] itself, and the access is read-only through a pointer to
    const. *)
Definition select (K : class_info) (p : pointer) (m : string)
  : option (string * bool) :=
  if bool_decide (m ∈ own_members K) then Some (m, ptr_const p) else None.

(** [r->m] on an object [r] of a pointer-like class [K] goes through the
    class's own [operator->] to the pointee, among whose members [m] is
    looked up; a class that is not pointer-like has no such access. *)
Definition select_pointee (K : class_info) (m : string) : option string :=
  ms ← pointee_members K;
  if bool_decide (m ∈ ms) then Some m else None.

(** [std::unique_ptr<user_defined_type>], the pointer-like resource of
    [main.cpp]. *)
Definition unique_ptr_of_user_defined_type : class_info :=
  {| own_members := ["get"; "release"; "reset"; "swap"];
     pointee_members := Some ["buffer"; "coefficient"; "lookup_table"] |}.

(** The number of entries of an object table whose value satisfies [P]. *)
Definition count_if {A} (P : A → bool) (m : gmap nat A) : nat :=
  size (filter (λ ia : nat * A, P ia.2 = true) m).

Definition tid := nat.

(** What client code does with a wrapper and its accessors; every request
    carries the thread that issues it.
    - [req_read], [req_write]: [auto a = w.read_access...()] and
      [auto a = w.write_access...()];
    - [req_move t src]: [auto b = std::move(a)];
    - [req_destroy t obj]: the accessor goes out of scope;
    - [req_assign t obj v]: [*a = v]. *)
Inductive request (T : Type) :=
  | req_read (t : tid)
  | req_write (t : tid)
  | req_move (t : tid) (src : nat)
  | req_destroy (t : tid) (obj : nat)
  | req_assign (t : tid) (obj : nat) (v : T).
Global Arguments req_read {T} t.
Global Arguments req_write {T} t.
Global Arguments req_move {T} t src.
Global Arguments req_destroy {T} t obj.
Global Arguments req_assign {T} t obj v.

End Backend.

(* ===================================================================== *)
(** ** Special member functions                                           *)
(* ===================================================================== *)

Module Special.


(** The bases and members an accessor class is made of. *)
Inductive subobject :=
  | base_noncopyable     (* [class noncopyable], concurrent.hpp 171-181 *)
  | member_guard         (* [LockType lock]: a standard guard *)
  | member_reference.    (* [ResourceType resource]: a reference *)



End Special.

(* ===================================================================== *)
(** ** [concurrent.hpp]: [accessor] and [concurrent]                      *)
(* ===================================================================== *)

Module Concurrent.
Import Backend.

(** [class accessor : private noncopyable], with its two data members. *)
Record accessor := {
  lock : guard;
  locked_resource : reference
}.

Definition accessor_layout : list Special.subobject :=
  [Special.base_noncopyable; Special.member_guard; Special.member_reference].

(** [accessor(LockableType& lockable, TypeQualifiedNonConcurrentType resource)
      : lock(lockable), locked_resource(resource)] *)
Definition accessor_ctor (fl : flavour) (hold : nat)
    (lockable : shared_mutex) (resource : reference)
  : outcome (shared_mutex * accessor) :=
  mg ← guard_lock fl hold lockable;
  Returns (mg.1, {| lock := mg.2; locked_resource := resource |}).


(** The implicit move constructor: the new accessor and the moved-from one. *)
Definition accessor_move (a : accessor) : accessor * accessor :=
  ({| lock := lock a; locked_resource := locked_resource a |},
   {| lock := moved_from (lock a); locked_resource := locked_resource a |}).

(** The implicit destructor destroys [lock]. *)
Definition accessor_dtor (a : accessor) (lockable : shared_mutex)
  : outcome shared_mutex :=
  guard_destroy (lock a) lockable.

(** [operator*]: [return locked_resource;] *)
Definition deref (a : accessor) : reference := locked_resource a.

(** The local [struct member_access_operator_decorator] of [operator->]. *)
Record member_access_operator_decorator := { value : reference }.

(** [accessor::operator->]: [return member_access_operator_decorator
    { locked_resource };] *)
Definition arrow (a : accessor) : member_access_operator_decorator :=
  {| value := locked_resource a |}.

(** [member_access_operator_decorator::operator->]: [return &value;] *)
Definition decorator_arrow (d : member_access_operator_decorator) : pointer :=
  address_of (value d).

Section concurrent.
Context {T : Type}.

(** [class concurrent]: the two data members. *)
Record concurrent := {
  resource : T;
  lockable : shared_mutex
}.

(** The constructors initialise [resource]; the lockable starts unlocked. *)
Definition make (v : T) : concurrent :=
  {| resource := v; lockable := Unlocked |}.

(** [read_access_handle() const]:
    [return shared_accessor_t{ lockable, resource };] *)
Definition read_access_handle (hold : nat) (c : concurrent)
  : outcome (concurrent * accessor) :=
  ma ← accessor_ctor shared_lock hold (lockable c) {| ref_const := true |};
  Returns ({| resource := resource c; lockable := ma.1 |}, ma.2).

(** [write_access_handle()]:
    [return exclusive_accessor_t{ lockable, resource };] *)
Definition write_access_handle (hold : nat) (c : concurrent)
  : outcome (concurrent * accessor) :=
  ma ← accessor_ctor unique_lock hold (lockable c) {| ref_const := false |};
  Returns ({| resource := resource c; lockable := ma.1 |}, ma.2).

(** Reading and writing through a reference to [resource]; a const
    reference admits no assignment. *)
Definition load (r : reference) (c : concurrent) : T := resource c.

Definition store (r : reference) (v : T) (c : concurrent) : option concurrent :=
  if ref_const r then None
  else Some {| resource := v; lockable := lockable c |}.

(** One wrapper and the accessor objects alive in its clients, by object
    identity.  [next_hold] and [released] are ghost state: the number of
    acquisitions so far and the holds given back, latest first. *)
Record world := {
  self : concurrent;
  objects : gmap nat accessor;
  next_obj : nat;
  next_hold : nat;
  released : list nat
}.

Definition init (v : T) : world :=
  {| self := make v; objects := ∅; next_obj := 0; next_hold := 0;
     released := [] |}.

(** The hold a destructor gives back, if any. *)
Definition gives_back (a : accessor) : list nat :=
  if g_owns (lock a) then [g_hold (lock a)] else [].

Definition acquired (w : world) (ca : concurrent * accessor) : world :=
  {| self := ca.1;
     objects := <[next_obj w := ca.2]> (objects w);
     next_obj := S (next_obj w);
     next_hold := S (next_hold w);
     released := released w |}.

Definition exec (r : request T) (w : world) : outcome world :=
  match r with
  | req_read _ =>
      ca ← read_access_handle (next_hold w) (self w); Returns (acquired w ca)
  | req_write _ =>
      ca ← write_access_handle (next_hold w) (self w); Returns (acquired w ca)
  | req_move _ src =>
      match objects w !! src with
      | None => Undefined
      | Some a =>
          let ba := accessor_move a in
          Returns {| self := self w;
                     objects := <[next_obj w := ba.1]> (<[src := ba.2]> (objects w));
                     next_obj := S (next_obj w);
                     next_hold := next_hold w;
                     released := released w |}
      end
  | req_destroy _ obj =>
      match objects w !! obj with
      | None => Undefined
      | Some a =>
          m ← accessor_dtor a (lockable (self w));
          Returns {| self := {| resource := resource (self w); lockable := m |};
                     objects := delete obj (objects w);
                     next_obj := next_obj w;
                     next_hold := next_hold w;
                     released := gives_back a ++ released w |}
      end
  | req_assign _ obj v =>
      match objects w !! obj with
      | None => Undefined
      | Some a =>
          match store (deref a) v (self w) with
          | None => Undefined
          | Some c =>
              Returns {| self := c; objects := objects w;
                         next_obj := next_obj w; next_hold := next_hold w;
                         released := released w |}
          end
      end
  end.

Fixpoint run (rs : list (request T)) (w : world) : outcome world :=
  match rs with
  | [] => Returns w
  | r :: rs' => w' ← exec r w; run rs' w'
  end.

(** Guards held: the live accessors whose guard owns a hold. *)
Definition holds (fl : flavour) (a : accessor) : bool :=
  bool_decide (g_flavour (lock a) = fl) && g_owns (lock a).

Definition owns_hold (h : nat) (a : accessor) : bool :=
  g_owns (lock a) && bool_decide (g_hold (lock a) = h).

(** The guards held through the wrapper, by mode. *)
Definition shared_held (w : world) : nat :=
  count_if (holds shared_lock) (objects w).

Definition exclusive_held (w : world) : nat :=
  count_if (holds unique_lock) (objects w).

(** How often hold [h] was given back, and how many live guards own it. *)
Definition times_released (h : nat) (w : world) : nat :=
  count_occ Nat.eq_dec (released w) h.

Definition owners (h : nat) (w : world) : nat :=
  count_if (owns_hold h) (objects w).

End concurrent.
Global Arguments concurrent : clear implicits.
Global Arguments world : clear implicits.

(** [x->m] is [(x.operator->())->m] as long as [x] is of class type; the
    operands that occur when [x] is an accessor. *)
Inductive operand :=
  | op_accessor (a : accessor)
  | op_decorator (d : member_access_operator_decorator)
  | op_pointer (p : pointer).

Definition arrow_step (x : operand) : option operand :=
  match x with
  | op_accessor a => Some (op_decorator (arrow a))
  | op_decorator d => Some (op_pointer (decorator_arrow d))
  | op_pointer _ => None
  end.

(** Follow the overloads down to the raw pointer the member is selected
    through. *)
Fixpoint drill (fuel : nat) (x : operand) : option pointer :=
  match x with
  | op_pointer p => Some p
  | _ =>
      match fuel with
      | 0 => None
      | S fuel' =>
          match arrow_step x with
          | Some y => drill fuel' y
          | None => None
          end
      end
  end.

(** [a->m] for an accessor [a] of a resource of class [K]. *)
Definition member_access (K : class_info) (a : accessor) (m : string)
  : option (string * bool) :=
  p ← drill 2 (op_accessor a); select K p m.

End Concurrent.

(* ===================================================================== *)
(** ** Deduced return types                                               *)
(* ===================================================================== *)

Module Deduction.

(** How a function that leaves its return type to its [return] statement
    spells the placeholder: [decltype(auto)] alone, or with [const] in
    front of it. *)
Inductive declared := plain_decltype_auto | const_decltype_auto.

(** [decltype(auto)] has to be the whole declared type.  With a
    cv-qualifier in front the declaration is ill-formed: there is no
    function to call, whatever the [return] statement yields. *)
Definition returns_as {A} (d : declared) (x : A) : option A :=
  match d with
  | plain_decltype_auto => Some x
  | const_decltype_auto => None
  end.

End Deduction.

(* ===================================================================== *)
(** ** [concurrent_resource.hpp]                                          *)
(* ===================================================================== *)

Module ConcurrentResource.
Import Backend.

(** [namespace detail] *)
Module detail.

(** [member_access_operator_decorator<TypeToDecorate>] *)
Record member_access_operator_decorator := { value : reference }.

(** [constexpr const decltype(auto) operator->() const noexcept
      { return &value; }] (line 83): the body yields the address of the
    referent, the declared type is [const decltype(auto)]. *)
Definition decorator_arrow (d : member_access_operator_decorator)
  : option pointer :=
  Deduction.returns_as Deduction.const_decltype_auto (address_of (value d)).

(** [accessor<LockType, ResourceType>] *)
Record accessor := {
  lock : guard;
  resource : reference
}.

Definition accessor_layout : list Special.subobject :=
  [Special.member_guard; Special.member_reference].

(** [accessor(ResourceType resource, shared_mutex_t & mtx)
      : lock(mtx), resource(resource)] *)
Definition accessor_ctor (fl : flavour) (hold : nat)
    (resource : reference) (mtx : shared_mutex)
  : outcome (shared_mutex * accessor) :=
  mg ← guard_lock fl hold mtx;
  Returns (mg.1, {| lock := mg.2; resource := resource |}).

(** The implicit move constructor and destructor. *)
Definition accessor_move (a : accessor) : accessor * accessor :=
  ({| lock := lock a; resource := resource a |},
   {| lock := moved_from (lock a); resource := resource a |}).

Definition accessor_dtor (a : accessor) (mtx : shared_mutex)
  : outcome shared_mutex :=
  guard_destroy (lock a) mtx.

(** [operator->]: [return member_access_operator_decorator<ResourceType>
    (resource);] *)
Definition arrow (a : accessor) : member_access_operator_decorator :=
  {| value := resource a |}.

(** [operator*]: [return resource;] *)
Definition deref (a : accessor) : reference := resource a.

(** [unsafe_accessor<ResourceType>]: a reference and no guard. *)
Record unsafe_accessor := { unsafe_resource : reference }.

(** [explicit unsafe_accessor(ResourceType resource)] *)
Definition unsafe_accessor_ctor (resource : reference) : unsafe_accessor :=
  {| unsafe_resource := resource |}.

Definition unsafe_arrow (a : unsafe_accessor) : member_access_operator_decorator :=
  {| value := unsafe_resource a |}.

(** The classes the member functions of [concurrent_resource] return. *)
Inductive class_name := read_accessor | write_accessor.

(** The expressions that occur in their braced return lists. *)
Inductive arg := arg_resource | arg_rwlock.

Global Instance arg_eq_dec : EqDecision arg.
Proof. solve_decision. Defined.

(** The constructors a braced list can select, by parameter list:
    [read_accessor] and [write_accessor] declare none and inherit the one
    constructor of their [accessor] base ([using ...::read_accessor_base]). *)
Definition constructors (c : class_name) : list (list arg) :=
  match c with
  | read_accessor | write_accessor => [[arg_resource; arg_rwlock]]
  end.

(** [return { args };] in a function returning [c] is well-formed when a
    constructor takes these arguments. *)
Definition list_init (c : class_name) (args : list arg) : bool :=
  bool_decide (args ∈ constructors c).

End detail.

(** The member functions of [concurrent_resource] with their return type
    and the braced list they return (lines 202-229). *)
Inductive member := read_access_fn | write_access_fn
  | unsafe_read_access_fn | unsafe_write_access_fn.

Definition return_stmt (f : member) : detail.class_name * list detail.arg :=
  match f with
  | read_access_fn => (detail.read_accessor, [detail.arg_resource; detail.arg_rwlock])
  | write_access_fn => (detail.write_accessor, [detail.arg_resource; detail.arg_rwlock])
  | unsafe_read_access_fn => (detail.read_accessor, [detail.arg_resource])
  | unsafe_write_access_fn => (detail.write_accessor, [detail.arg_resource])
  end.

(** Whether a call of the member function can be compiled. *)
Definition well_formed (f : member) : bool :=
  detail.list_init (return_stmt f).1 (return_stmt f).2.

Section concurrent_resource.
Context {T : Type}.

(** [struct concurrent_resource : lockable<>]: [rwlock] of the base, then
    [resource]. *)
Record concurrent_resource := {
  rwlock : shared_mutex;
  resource : T
}.

Definition make (v : T) : concurrent_resource :=
  {| rwlock := Unlocked; resource := v |}.

(** [read_access() const]: [return {resource, rwlock};] *)
Definition read_access (hold : nat) (c : concurrent_resource)
  : outcome (concurrent_resource * detail.accessor) :=
  ma ← detail.accessor_ctor shared_lock hold {| ref_const := true |} (rwlock c);
  Returns ({| rwlock := ma.1; resource := resource c |}, ma.2).

(** [write_access()]: [return {resource, rwlock};] *)
Definition write_access (hold : nat) (c : concurrent_resource)
  : outcome (concurrent_resource * detail.accessor) :=
  ma ← detail.accessor_ctor unique_lock hold {| ref_const := false |} (rwlock c);
  Returns ({| rwlock := ma.1; resource := resource c |}, ma.2).

Definition load (r : reference) (c : concurrent_resource) : T := resource c.

Definition store (r : reference) (v : T) (c : concurrent_resource)
  : option concurrent_resource :=
  if ref_const r then None
  else Some {| rwlock := rwlock c; resource := v |}.

Record world := {
  self : concurrent_resource;
  objects : gmap nat detail.accessor;
  next_obj : nat;
  next_hold : nat;
  released : list nat
}.

Definition init (v : T) : world :=
  {| self := make v; objects := ∅; next_obj := 0; next_hold := 0;
     released := [] |}.

Definition gives_back (a : detail.accessor) : list nat :=
  if g_owns (detail.lock a) then [g_hold (detail.lock a)] else [].

Definition acquired (w : world) (ca : concurrent_resource * detail.accessor)
  : world :=
  {| self := ca.1;
     objects := <[next_obj w := ca.2]> (objects w);
     next_obj := S (next_obj w);
     next_hold := S (next_hold w);
     released := released w |}.

Definition exec (r : request T) (w : world) : outcome world :=
  match r with
  | req_read _ =>
      ca ← read_access (next_hold w) (self w); Returns (acquired w ca)
  | req_write _ =>
      ca ← write_access (next_hold w) (self w); Returns (acquired w ca)
  | req_move _ src =>
      match objects w !! src with
      | None => Undefined
      | Some a =>
          let ba := detail.accessor_move a in
          Returns {| self := self w;
                     objects := <[next_obj w := ba.1]> (<[src := ba.2]> (objects w));
                     next_obj := S (next_obj w);
                     next_hold := next_hold w;
                     released := released w |}
      end
  | req_destroy _ obj =>
      match objects w !! obj with
      | None => Undefined
      | Some a =>
          m ← detail.accessor_dtor a (rwlock (self w));
          Returns {| self := {| rwlock := m; resource := resource (self w) |};
                     objects := delete obj (objects w);
                     next_obj := next_obj w;
                     next_hold := next_hold w;
                     released := gives_back a ++ released w |}
      end
  | req_assign _ obj v =>
      match objects w !! obj with
      | None => Undefined
      | Some a =>
          match store (detail.deref a) v (self w) with
          | None => Undefined
          | Some c =>
              Returns {| self := c; objects := objects w;
                         next_obj := next_obj w; next_hold := next_hold w;
                         released := released w |}
          end
      end
  end.

Fixpoint run (rs : list (request T)) (w : world) : outcome world :=
  match rs with
  | [] => Returns w
  | r :: rs' => w' ← exec r w; run rs' w'
  end.

Definition holds (fl : flavour) (a : detail.accessor) : bool :=
  bool_decide (g_flavour (detail.lock a) = fl) && g_owns (detail.lock a).

Definition owns_hold (h : nat) (a : detail.accessor) : bool :=
  g_owns (detail.lock a) && bool_decide (g_hold (detail.lock a) = h).

Definition shared_held (w : world) : nat :=
  count_if (holds shared_lock) (objects w).

Definition exclusive_held (w : world) : nat :=
  count_if (holds unique_lock) (objects w).

Definition times_released (h : nat) (w : world) : nat :=
  count_occ Nat.eq_dec (released w) h.

Definition owners (h : nat) (w : world) : nat :=
  count_if (owns_hold h) (objects w).

End concurrent_resource.
Global Arguments concurrent_resource : clear implicits.
Global Arguments world : clear implicits.

Inductive operand :=
  | op_accessor (a : detail.accessor)
  | op_decorator (d : detail.member_access_operator_decorator)
  | op_pointer (p : pointer).

Definition arrow_step (x : operand) : option operand :=
  match x with
  | op_accessor a => Some (op_decorator (detail.arrow a))
  | op_decorator d => op_pointer <$> detail.decorator_arrow d
  | op_pointer _ => None
  end.

Fixpoint drill (fuel : nat) (x : operand) : option pointer :=
  match x with
  | op_pointer p => Some p
  | _ =>
      match fuel with
      | 0 => None
      | S fuel' =>
          match arrow_step x with
          | Some y => drill fuel' y
          | None => None
          end
      end
  end.

Definition member_access (K : class_info) (a : detail.accessor) (m : string)
  : option (string * bool) :=
  p ← drill 2 (op_accessor a); select K p m.

End ConcurrentResource.

(* ===================================================================== *)
(** ** Reading [concurrent_resource] as [concurrent]                      *)
(* ===================================================================== *)

Module Refinement.
Import Backend.

(** The two accessor classes and the two wrappers have the same members
    under different names. *)
Definition to_accessor (a : ConcurrentResource.detail.accessor)
  : Concurrent.accessor :=
  {| Concurrent.lock := ConcurrentResource.detail.lock a;
     Concurrent.locked_resource := ConcurrentResource.detail.resource a |}.

Section to_world.
Context {T : Type}.

Definition to_concurrent (c : ConcurrentResource.concurrent_resource T)
  : Concurrent.concurrent T :=
  {| Concurrent.resource := ConcurrentResource.resource c;
     Concurrent.lockable := ConcurrentResource.rwlock c |}.

Definition to_world (w : ConcurrentResource.world T) : Concurrent.world T :=
  {| Concurrent.self := to_concurrent (ConcurrentResource.self w);
     Concurrent.objects := to_accessor <$> ConcurrentResource.objects w;
     Concurrent.next_obj := ConcurrentResource.next_obj w;
     Concurrent.next_hold := ConcurrentResource.next_hold w;
     Concurrent.released := ConcurrentResource.released w |}.

End to_world.
End Refinement.

(* ===================================================================== *)
(** * Counting the entries of an object table                            *)
(* ===================================================================== *)

Module Counting.
Import Backend.

Section count_if.
Context {A : Type} (P : A → bool).
Implicit Types (m : gmap nat A) (i : nat) (x y : A).

Definition weight x : nat := if P x then 1 else 0.

Lemma count_if_empty : count_if P (∅ : gmap nat A) = 0.
Proof. unfold count_if. by rewrite map_filter_empty, map_size_empty. Qed.

Lemma count_if_insert_fresh m i x :
  m !! i = None → count_if P (<[i:=x]> m) = count_if P m + weight x.
Proof.
  intros Hi. unfold count_if, weight.
  destruct (P x) eqn:Hx.
  - rewrite map_filter_insert_True by done.
    rewrite map_size_insert_None; [lia|].
    by rewrite map_lookup_filter_None; left.
  - rewrite map_filter_insert_not'; [lia|simpl; congruence|].
    intros y Hy. congruence.
Qed.

Lemma count_if_delete m i x :
  m !! i = Some x → count_if P (delete i m) + weight x = count_if P m.
Proof.
  intros Hi.
  rewrite <- (insert_delete_id m i x) at 2 by done.
  rewrite count_if_insert_fresh by apply lookup_delete_eq. done.
Qed.

Lemma count_if_insert_over m i x y :
  m !! i = Some x →
  count_if P (<[i:=y]> m) + weight x = count_if P m + weight y.
Proof.
  intros Hi. rewrite <- (insert_delete_eq m i y).
  rewrite count_if_insert_fresh by apply lookup_delete_eq.
  pose proof (count_if_delete m i x Hi). lia.
Qed.

Lemma count_if_lookup m i x :
  m !! i = Some x → P x = true → 1 ≤ count_if P m.
Proof.
  intros Hi Hx. pose proof (count_if_delete m i x Hi) as H.
  unfold weight in H. rewrite Hx in H. lia.
Qed.

End count_if.

Lemma count_if_fmap {A B} (f : A → B) (P : B → bool) (m : gmap nat A) :
  count_if P (f <$> m) = count_if (λ x, P (f x)) m.
Proof.
  induction m as [|i x m Hi IH] using map_ind.
  - by rewrite fmap_empty, !count_if_empty.
  - rewrite fmap_insert, !count_if_insert_fresh, IH; [done|done|].
    by rewrite lookup_fmap, Hi.
Qed.

End Counting.

(* ===================================================================== *)
(** * The lock protocol of [concurrent]                                   *)
(* ===================================================================== *)

Module Protocol.
Import Backend Counting Concurrent.

Record inv {T} (w : world T) : Prop := {
  inv_fresh : ∀ i, next_obj w ≤ i → objects w !! i = None;
  inv_lock : agrees (lockable (self w)) (shared_held w) (exclusive_held w);
  inv_hold : ∀ h,
    times_released h w + owners h w = if decide (h < next_hold w) then 1 else 0
}.

Section facts.
Context {T : Type}.
Implicit Types (w : world T) (a : accessor) (r : request T).

Lemma inv_init (v : T) : inv (init v).
Proof.
  split; unfold shared_held, exclusive_held, times_released, owners.
  - intros i _. apply lookup_empty.
  - simpl. by rewrite !count_if_empty.
  - intros h. unfold init at 2. cbn [objects released next_hold init].
    rewrite count_if_empty. case_decide; simpl; lia.
Qed.

Lemma weight_holds_moved fl a :
  weight (holds fl) {| lock := moved_from (lock a);
                       locked_resource := locked_resource a |} = 0.
Proof. unfold weight, holds. simpl. by rewrite andb_false_r. Qed.

Lemma weight_owns_moved h a :
  weight (owns_hold h) {| lock := moved_from (lock a);
                          locked_resource := locked_resource a |} = 0.
Proof. done. Qed.

Lemma weight_eta (P : accessor → bool) a :
  weight P {| lock := lock a; locked_resource := locked_resource a |} = weight P a.
Proof. by destruct a. Qed.

(** A move changes no count: the new object weighs what the source did,
    and the source weighs nothing afterwards. *)
Lemma count_if_move (P : accessor → bool) (m : gmap nat accessor) src n a :
  m !! src = Some a → m !! n = None →
  weight P {| lock := moved_from (lock a);
              locked_resource := locked_resource a |} = 0 →
  count_if P (<[n := (accessor_move a).1]> (<[src := (accessor_move a).2]> m))
  = count_if P m.
Proof.
  intros Hsrc Hn H0.
  assert (src ≠ n) by congruence.
  rewrite count_if_insert_fresh by by rewrite lookup_insert_ne.
  pose proof (count_if_insert_over P m src a (accessor_move a).2 Hsrc) as E.
  simpl in *. rewrite H0 in E. rewrite weight_eta. lia.
Qed.

Lemma inv_acquire_shared w hold :
  inv w →
  match read_access_handle hold (self w) with
  | Returns ca =>
      lockable (self w) ≠ ExclusiveLocked ∧
      resource ca.1 = resource (self w) ∧
      ca.2 = {| lock := {| g_flavour := shared_lock; g_owns := true; g_hold := hold |};
                locked_resource := {| ref_const := true |} |} ∧
      lockable ca.1 = SharedLocked (S (shared_held w))
  | Blocks => lockable (self w) = ExclusiveLocked
  | Undefined => False
  end.
Proof.
  intros [_ Hl _]. unfold read_access_handle, accessor_ctor, guard_lock.
  destruct (lockable (self w)) eqn:E; simpl in *; try done.
  - destruct Hl as [-> _]. done.
  - destruct Hl as (-> & _ & _). done.
Qed.

Lemma inv_acquire_exclusive w hold :
  inv w →
  match write_access_handle hold (self w) with
  | Returns ca =>
      lockable (self w) = Unlocked ∧
      resource ca.1 = resource (self w) ∧
      ca.2 = {| lock := {| g_flavour := unique_lock; g_owns := true; g_hold := hold |};
                locked_resource := {| ref_const := false |} |} ∧
      lockable ca.1 = ExclusiveLocked
  | Blocks => lockable (self w) ≠ Unlocked
  | Undefined => False
  end.
Proof.
  intros _. unfold write_access_handle, accessor_ctor, guard_lock.
  destruct (lockable (self w)) eqn:E; simpl in *; done.
Qed.

Lemma weight_owns_new h fl hold (rf : reference) :
  weight (owns_hold h)
    {| lock := {| g_flavour := fl; g_owns := true; g_hold := hold |};
       locked_resource := rf |}
  = if decide (hold = h) then 1 else 0.
Proof. unfold weight, owns_hold. simpl. by case_bool_decide; case_decide. Qed.

Lemma weight_holds_new fl fl' hold (rf : reference) :
  weight (holds fl)
    {| lock := {| g_flavour := fl'; g_owns := true; g_hold := hold |};
       locked_resource := rf |}
  = if decide (fl' = fl) then 1 else 0.
Proof. unfold weight, holds. simpl. by case_bool_decide; case_decide. Qed.

Lemma inv_hold_acquired w (ca : concurrent T * accessor) fl (rf : reference) :
  inv w →
  ca.2 = {| lock := {| g_flavour := fl; g_owns := true; g_hold := next_hold w |};
            locked_resource := rf |} →
  ∀ h, times_released h (acquired w ca) + owners h (acquired w ca)
       = if decide (h < next_hold (acquired w ca)) then 1 else 0.
Proof.
  intros Hi Ha h. pose proof (inv_hold w Hi h) as Hh.
  unfold times_released, owners, acquired in *. simpl.
  rewrite count_if_insert_fresh by (by apply inv_fresh).
  rewrite Ha, weight_owns_new.
  repeat case_decide; lia.
Qed.

Lemma inv_read w t w' : inv w → exec (req_read t) w = Returns w' → inv w'.
Proof.
  intros Hi He. simpl in He.
  pose proof (inv_acquire_shared w (next_hold w) Hi) as Ha.
  destruct (read_access_handle _ _) as [ca| |]; simplify_eq/=.
  destruct Ha as (Hne & _ & Ha & Hlk).
  split.
  - intros i Hle. simpl in *. rewrite lookup_insert_ne by lia.
    apply inv_fresh; [done|lia].
  - pose proof (inv_lock w Hi) as Hl.
    unfold shared_held, exclusive_held in *. simpl.
    rewrite !count_if_insert_fresh by (by apply inv_fresh).
    rewrite Hlk, Ha, !weight_holds_new. simpl.
    destruct (lockable (self w)); simpl in *; [lia|lia|done].
  - by eapply inv_hold_acquired.
Qed.

Lemma inv_write w t w' : inv w → exec (req_write t) w = Returns w' → inv w'.
Proof.
  intros Hi He. simpl in He.
  pose proof (inv_acquire_exclusive w (next_hold w) Hi) as Ha.
  destruct (write_access_handle _ _) as [ca| |]; simplify_eq/=.
  destruct Ha as (Hun & _ & Ha & Hlk).
  split.
  - intros i Hle. simpl in *. rewrite lookup_insert_ne by lia.
    apply inv_fresh; [done|lia].
  - pose proof (inv_lock w Hi) as Hl.
    unfold shared_held, exclusive_held in *. simpl.
    rewrite !count_if_insert_fresh by (by apply inv_fresh).
    rewrite Hlk, Ha, !weight_holds_new. simpl.
    rewrite Hun in Hl. simpl in Hl. lia.
  - by eapply inv_hold_acquired.
Qed.

Lemma inv_move w t src w' :
  inv w → exec (req_move t src) w = Returns w' → inv w'.
Proof.
  intros Hi He. simpl in He.
  destruct (objects w !! src) as [a|] eqn:Hsrc; simplify_eq/=.
  assert (objects w !! next_obj w = None) as Hn by (by apply inv_fresh).
  split.
  - intros i Hle. simpl in *.
    rewrite !lookup_insert_ne; [apply inv_fresh; [done|lia]| |lia].
    intros ->. rewrite inv_fresh in Hsrc; [done|done|lia].
  - pose proof (inv_lock w Hi) as Hl.
    unfold shared_held, exclusive_held in *. simpl.
    pose proof (count_if_move (holds shared_lock) _ _ _ _ Hsrc Hn
                  (weight_holds_moved _ _)) as E1.
    pose proof (count_if_move (holds unique_lock) _ _ _ _ Hsrc Hn
                  (weight_holds_moved _ _)) as E2.
    simpl in E1, E2. by rewrite E1, E2.
  - intros h. pose proof (inv_hold w Hi h) as Hh.
    unfold times_released, owners in *. simpl.
    pose proof (count_if_move (owns_hold h) _ _ _ _ Hsrc Hn
                  (weight_owns_moved _ _)) as E.
    simpl in E. by rewrite E.
Qed.

Lemma inv_assign w t obj v w' :
  inv w → exec (req_assign t obj v) w = Returns w' → inv w'.
Proof.
  intros [H1 H2 H3] He. simpl in He.
  destruct (objects w !! obj) as [a|]; [|done].
  unfold store in He. destruct (ref_const _); simplify_eq/=.
  by split.
Qed.

(** The destructor of a live accessor always returns: a guard that owns a
    hold finds the primitive held in its own mode. *)
Lemma dtor_returns w obj a :
  inv w → objects w !! obj = Some a →
  ∃ m, accessor_dtor a (lockable (self w)) = Returns m ∧
       agrees m (shared_held w - weight (holds shared_lock) a)
                (exclusive_held w - weight (holds unique_lock) a).
Proof.
  intros Hi Ha. pose proof (inv_lock w Hi) as Hl.
  unfold accessor_dtor, guard_destroy, weight, holds.
  destruct a as [[fl [|] h] rf]; simpl.
  - destruct fl; simpl.
    + assert (1 ≤ shared_held w) as Hs
        by (eapply count_if_lookup; [exact Ha|done]).
      destruct (lockable (self w)) as [|n|]; simpl in *; [lia| |lia].
      destruct Hl as (-> & _ & Hx).
      destruct (shared_held w) as [|[|k]] eqn:E; [lia| |].
      * exists Unlocked. split; [done|]. simpl. lia.
      * exists (SharedLocked (S k)). split; [done|]. simpl. lia.
    + assert (1 ≤ exclusive_held w) as Hx
        by (eapply count_if_lookup; [exact Ha|done]).
      destruct (lockable (self w)) as [|n|]; simpl in *; [lia|lia|].
      exists Unlocked. split; [done|]. simpl. lia.
  - rewrite !andb_false_r. simpl. exists (lockable (self w)).
    split; [done|]. by rewrite !Nat.sub_0_r.
Qed.

Lemma weight_owns_gives_back h a :
  count_occ Nat.eq_dec (gives_back a) h = weight (owns_hold h) a.
Proof.
  unfold gives_back, weight, owns_hold.
  destruct (g_owns (lock a)); simpl; [|done].
  destruct (Nat.eq_dec _ _); case_bool_decide; done.
Qed.

Lemma inv_destroy w t obj w' :
  inv w → exec (req_destroy t obj) w = Returns w' → inv w'.
Proof.
  intros Hi He. simpl in He.
  destruct (objects w !! obj) as [a|] eqn:Ha; [|done].
  destruct (dtor_returns w obj a Hi Ha) as (m & Hm & Hag).
  rewrite Hm in He. simplify_eq/=.
  split.
  - intros i Hle. simpl in *.
    destruct (decide (i = obj)) as [->|?]; [apply lookup_delete_eq|].
    rewrite lookup_delete_ne by done. by apply inv_fresh.
  - unfold shared_held, exclusive_held in *. simpl.
    pose proof (count_if_delete (holds shared_lock) _ _ _ Ha).
    pose proof (count_if_delete (holds unique_lock) _ _ _ Ha).
    replace (count_if (holds shared_lock) (delete obj (objects w)))
      with (count_if (holds shared_lock) (objects w)
            - weight (holds shared_lock) a) by lia.
    replace (count_if (holds unique_lock) (delete obj (objects w)))
      with (count_if (holds unique_lock) (objects w)
            - weight (holds unique_lock) a) by lia.
    done.
  - intros h. pose proof (inv_hold w Hi h) as Hh.
    unfold times_released, owners in *. simpl.
    rewrite count_occ_app, weight_owns_gives_back.
    pose proof (count_if_delete (owns_hold h) _ _ _ Ha). lia.
Qed.

Lemma inv_exec w r w' : inv w → exec r w = Returns w' → inv w'.
Proof.
  destruct r; eauto using inv_read, inv_write, inv_move, inv_destroy, inv_assign.
Qed.

Lemma inv_run rs : ∀ w w', inv w → run rs w = Returns w' → inv w'.
Proof.
  induction rs as [|r rs IH]; intros w w' Hi Hr; simpl in Hr.
  - by simplify_eq.
  - destruct (exec r w) as [w1| |] eqn:E; [|done..].
    eapply IH; [|exact Hr]. by eapply inv_exec.
Qed.

Lemma inv_reachable rs v w : run rs (init v) = Returns w → inv w.
Proof. apply inv_run, inv_init. Qed.

End facts.
End Protocol.

(* ===================================================================== *)
(** * [concurrent_resource] behaves as [concurrent]                       *)
(* ===================================================================== *)

Module Simulation.
Import Backend Counting Refinement.
Module L := ConcurrentResource.
Module C := Concurrent.

Section facts.
Context {T : Type}.
Implicit Types (w : L.world T) (r : request T).

Lemma to_world_init (v : T) : to_world (L.init v) = C.init v.
Proof. unfold to_world, L.init, C.init. simpl. by rewrite fmap_empty. Qed.

Lemma read_to_concurrent hold (c : L.concurrent_resource T) :
  C.read_access_handle hold (to_concurrent c)
  = prod_map to_concurrent to_accessor <$> L.read_access hold c.
Proof. destruct c as [[] ?]; done. Qed.

Lemma write_to_concurrent hold (c : L.concurrent_resource T) :
  C.write_access_handle hold (to_concurrent c)
  = prod_map to_concurrent to_accessor <$> L.write_access hold c.
Proof. destruct c as [[] ?]; done. Qed.

Lemma acquired_to_world w ca :
  C.acquired (to_world w) (prod_map to_concurrent to_accessor ca)
  = to_world (L.acquired w ca).
Proof.
  unfold C.acquired, L.acquired, to_world. simpl. by rewrite fmap_insert.
Qed.

Lemma dtor_to_accessor a m :
  C.accessor_dtor (to_accessor a) m = L.detail.accessor_dtor a m.
Proof. done. Qed.

(** One request takes related worlds to related worlds, with the same
    outcome. *)
Lemma exec_to_world r w : C.exec r (to_world w) = to_world <$> L.exec r w.
Proof.
  destruct r as [t|t|t src|t obj|t obj v]; simpl.
  - rewrite read_to_concurrent.
    destruct (L.read_access _ _) as [ca| |]; simpl; [|done..].
    by rewrite acquired_to_world.
  - rewrite write_to_concurrent.
    destruct (L.write_access _ _) as [ca| |]; simpl; [|done..].
    by rewrite acquired_to_world.
  - rewrite lookup_fmap.
    destruct (L.objects w !! src) as [a|]; simpl; [|done].
    unfold to_world. simpl. by rewrite !fmap_insert.
  - rewrite lookup_fmap.
    destruct (L.objects w !! obj) as [a|]; simpl; [|done].
    rewrite dtor_to_accessor.
    destruct (L.detail.accessor_dtor _ _) as [m| |]; simpl; [|done..].
    unfold to_world. simpl. by rewrite fmap_delete.
  - rewrite lookup_fmap.
    destruct (L.objects w !! obj) as [a|]; simpl; [|done].
    unfold C.store, L.store, C.deref, L.detail.deref. simpl.
    by destruct (ref_const _).
Qed.

Lemma run_to_world rs w : C.run rs (to_world w) = to_world <$> L.run rs w.
Proof.
  revert w. induction rs as [|r rs IH]; intros w; simpl; [done|].
  rewrite exec_to_world.
  destruct (L.exec r w) as [w1| |]; simpl; [apply IH|done..].
Qed.

Lemma run_init_to_world rs (v : T) :
  C.run rs (C.init v) = to_world <$> L.run rs (L.init v).
Proof. by rewrite <- to_world_init, run_to_world. Qed.

Lemma shared_held_to_world w : C.shared_held (to_world w) = L.shared_held w.
Proof. unfold C.shared_held, L.shared_held. simpl. by rewrite count_if_fmap. Qed.

Lemma exclusive_held_to_world w :
  C.exclusive_held (to_world w) = L.exclusive_held w.
Proof.
  unfold C.exclusive_held, L.exclusive_held. simpl. by rewrite count_if_fmap.
Qed.

Lemma owners_to_world h w : C.owners h (to_world w) = L.owners h w.
Proof. unfold C.owners, L.owners. simpl. by rewrite count_if_fmap. Qed.

Lemma times_released_to_world h w :
  C.times_released h (to_world w) = L.times_released h w.
Proof. done. Qed.

(** What is reachable in [concurrent_resource] is reachable, renamed, in
    [concurrent]. *)
Lemma reachable_to_world rs (v : T) w :
  L.run rs (L.init v) = Returns w → C.run rs (C.init v) = Returns (to_world w).
Proof. intros H. by rewrite run_init_to_world, H. Qed.

End facts.
End Simulation.

(* ===================================================================== *)
(** * Properties of the wrappers                                          *)
(* ===================================================================== *)

Import Backend.
Module L := ConcurrentResource.
Module C := Concurrent.

(** ** The global invariant *)

Lemma regime_of_agrees m ns nx :
  agrees m ns nx → exists ! g, in_regime g ns nx.
Proof.
  intros H. destruct m as [|n|]; simpl in H.
  - exists no_guards. split; [simpl; lia|]. intros []; simpl; [done|lia..].
  - exists shared_guards. split; [simpl; lia|]. intros []; simpl; [lia|done|lia].
  - exists one_exclusive_guard. split; [simpl; lia|].
    intros []; simpl; [lia|lia|done].
Qed.

Lemma transfer_returns {T} (r : request T) (w : L.world T) w' :
  C.exec r (Refinement.to_world w) = Returns w' →
  ∃ w1, L.exec r w = Returns w1 ∧ w' = Refinement.to_world w1.
Proof.
  rewrite Simulation.exec_to_world.
  destruct (L.exec r w) as [w1| |]; simpl; [|done..].
  intros [= <-]. eauto.
Qed.

Lemma transfer_blocks {T} (r : request T) (w : L.world T) :
  C.exec r (Refinement.to_world w) = Blocks → L.exec r w = Blocks.
Proof.
  rewrite Simulation.exec_to_world. by destruct (L.exec r w).
Qed.

(** C1. In every state that a sequence of accessor constructions, moves and
    destructions can reach, in either wrapper, the primitive's state agrees
    with the guards held by the live accessors, and exactly one of the three
    regimes holds: no guard held; one or more shared guards and no exclusive
    one; exactly one exclusive guard and no shared one. *)
Theorem lock_state_regime :
  (∀ T rs (v : T) (w : C.world T),
     C.run rs (C.init v) = Returns w →
     agrees (C.lockable (C.self w)) (C.shared_held w) (C.exclusive_held w) ∧
     exists ! g, in_regime g (C.shared_held w) (C.exclusive_held w))
  ∧
  (∀ T rs (v : T) (w : L.world T),
     L.run rs (L.init v) = Returns w →
     agrees (L.rwlock (L.self w)) (L.shared_held w) (L.exclusive_held w) ∧
     exists ! g, in_regime g (L.shared_held w) (L.exclusive_held w)).
Proof.
  assert (∀ T rs (v : T) (w : C.world T),
     C.run rs (C.init v) = Returns w →
     agrees (C.lockable (C.self w)) (C.shared_held w) (C.exclusive_held w) ∧
     exists ! g, in_regime g (C.shared_held w) (C.exclusive_held w)) as HC.
  { intros T rs v w Hr.
    pose proof (Protocol.inv_lock w (Protocol.inv_reachable rs v w Hr)) as Hl.
    split; [done|]. by eapply regime_of_agrees. }
  split; [exact HC|].
  intros T rs v w Hr.
  apply Simulation.reachable_to_world in Hr.
  specialize (HC T rs v _ Hr).
  by rewrite Simulation.shared_held_to_world,
    Simulation.exclusive_held_to_world in HC.
Qed.

Lemma lock_state_regime_witness :
  ∃ w : C.world nat,
    C.run [req_read 1; req_write 2] (C.init 0) = Blocks ∧
    C.run [req_read 1; req_read 2; req_destroy 1 0] (C.init 0) = Returns w ∧
    C.lockable (C.self w) = SharedLocked 1 ∧
    exists ! g, in_regime g (C.shared_held w) (C.exclusive_held w).
Proof.
  eexists. split; [reflexivity|]. split; [reflexivity|]. split; [reflexivity|].
  eapply (proj1 lock_state_regime nat
            [req_read 1; req_read 2; req_destroy 1 0] 0).
  reflexivity.
Defined.

(** ** Mutual exclusion *)

(** A request ends the life of accessor [i] as a holder: it destroys it or
    moves its guard away. *)
Definition touches {T} (i : nat) (r : request T) : bool :=
  match r with
  | req_move _ j | req_destroy _ j => bool_decide (j = i)
  | _ => false
  end.

(** A run leaves accessor [i] alone. *)
Definition untouched {T} (i : nat) (rs : list (request T)) : Prop :=
  Forall (λ r, touches i r = false) rs.

Section exclusion.
Context {T : Type}.
Implicit Types (w : C.world T).

Lemma exclusive_holder_locks w i a :
  Protocol.inv w → C.objects w !! i = Some a → C.holds unique_lock a = true →
  C.lockable (C.self w) = ExclusiveLocked.
Proof.
  intros Hi Ha Hh. pose proof (Protocol.inv_lock w Hi) as Hl.
  assert (1 ≤ C.exclusive_held w)
    by (eapply Counting.count_if_lookup; [exact Ha|done]).
  destruct (C.lockable (C.self w)); simpl in Hl; [lia|lia|done].
Qed.

Lemma acquire_blocks w t :
  C.lockable (C.self w) = ExclusiveLocked →
  C.exec (req_read t) w = Blocks ∧ C.exec (req_write t) w = Blocks.
Proof.
  intros E. simpl.
  unfold C.read_access_handle, C.write_access_handle, C.accessor_ctor,
    guard_lock.
  by rewrite E.
Qed.

Lemma acquire_returns w t :
  C.lockable (C.self w) = Unlocked →
  (∃ w', C.exec (req_read t) w = Returns w') ∧
  (∃ w', C.exec (req_write t) w = Returns w').
Proof.
  intros E. simpl.
  unfold C.read_access_handle, C.write_access_handle, C.accessor_ctor,
    guard_lock.
  rewrite E. simpl. eauto.
Qed.

Lemma exclusive_release_unlocks w t i a :
  Protocol.inv w → C.objects w !! i = Some a → C.holds unique_lock a = true →
  ∃ w', C.exec (req_destroy t i) w = Returns w' ∧
        C.lockable (C.self w') = Unlocked.
Proof.
  intros Hi Ha Hh.
  pose proof (exclusive_holder_locks w i a Hi Ha Hh) as E.
  simpl. rewrite Ha. unfold C.accessor_dtor, guard_destroy.
  unfold C.holds in Hh. apply andb_true_iff in Hh as [Hf Ho].
  apply bool_decide_eq_true in Hf. rewrite Ho, Hf, E. simpl. eauto.
Qed.

(** While an exclusive accessor lives, every acquisition waits; destroying
    it unlocks the primitive, and then both acquisitions return. *)
Lemma exclusion_concurrent w i a :
  Protocol.inv w → C.objects w !! i = Some a → C.holds unique_lock a = true →
  (∀ t, C.exec (req_read t) w = Blocks ∧ C.exec (req_write t) w = Blocks) ∧
  (∀ t, ∃ w', C.exec (req_destroy t i) w = Returns w' ∧
     ∀ t', (∃ w'', C.exec (req_read t') w' = Returns w'') ∧
           (∃ w'', C.exec (req_write t') w' = Returns w'')).
Proof.
  intros Hi Ha Hh. split.
  - intros t. eapply acquire_blocks, exclusive_holder_locks; eauto.
  - intros t.
    destruct (exclusive_release_unlocks w t i a Hi Ha Hh) as (w' & He & Hu).
    exists w'. split; [done|]. intros t'. by apply acquire_returns.
Qed.

(** The accessor [write_access_handle] hands out is alive and owns an
    exclusive hold. *)
Lemma write_gives_owner w t w1 :
  Protocol.inv w → C.exec (req_write t) w = Returns w1 →
  ∃ a, C.objects w1 !! C.next_obj w = Some a ∧ C.holds unique_lock a = true.
Proof.
  intros Hi He. simpl in He.
  pose proof (Protocol.inv_acquire_exclusive w (C.next_hold w) Hi) as Ha.
  destruct (C.write_access_handle _ _) as [ca| |]; simplify_eq/=.
  destruct Ha as (_ & _ & Ha & _).
  exists ca.2. rewrite lookup_insert_eq. split; [done|]. by rewrite Ha.
Qed.

(** A request that neither destroys nor moves a live accessor leaves it as
    it is. *)
Lemma exec_keeps (r : request T) w w' i a :
  Protocol.inv w → C.objects w !! i = Some a → touches i r = false →
  C.exec r w = Returns w' → C.objects w' !! i = Some a.
Proof.
  intros Hi Ha Ht He.
  assert (i ≠ C.next_obj w) as Hne.
  { intros ->. rewrite (Protocol.inv_fresh w Hi) in Ha; [done|lia]. }
  destruct r as [t|t|t src|t obj|t obj x]; simpl in He, Ht.
  - destruct (C.read_access_handle _ _); simplify_eq/=.
    by rewrite lookup_insert_ne.
  - destruct (C.write_access_handle _ _); simplify_eq/=.
    by rewrite lookup_insert_ne.
  - apply bool_decide_eq_false in Ht.
    destruct (C.objects w !! src); simplify_eq/=.
    by rewrite !lookup_insert_ne.
  - apply bool_decide_eq_false in Ht.
    destruct (C.objects w !! obj); [|done].
    destruct (C.accessor_dtor _ _); simplify_eq/=.
    by rewrite lookup_delete_ne.
  - destruct (C.objects w !! obj); [|done].
    destruct (C.store _ _ _); by simplify_eq/=.
Qed.

Lemma run_keeps rs i a : ∀ w w',
  Protocol.inv w → C.objects w !! i = Some a → untouched i rs →
  C.run rs w = Returns w' → C.objects w' !! i = Some a ∧ Protocol.inv w'.
Proof.
  induction rs as [|r rs IH]; intros w w' Hi Ha Hu Hr; simpl in Hr.
  - by simplify_eq.
  - apply Forall_cons in Hu as [Hr0 Hu].
    destruct (C.exec r w) as [w1| |] eqn:E; [|done..]. simpl in Hr.
    eapply (IH w1); eauto using exec_keeps, Protocol.inv_exec.
Qed.

(** From the moment [write_access_handle] returns until the accessor it
    returned is destroyed or moved from, every acquisition waits. *)
Lemma write_excludes w0 t w1 rs w :
  Protocol.inv w0 → C.exec (req_write t) w0 = Returns w1 →
  untouched (C.next_obj w0) rs → C.run rs w1 = Returns w →
  (∀ t', C.exec (req_read t') w = Blocks ∧ C.exec (req_write t') w = Blocks) ∧
  (∀ t', ∃ w', C.exec (req_destroy t' (C.next_obj w0)) w = Returns w' ∧
     ∀ t'', (∃ w'', C.exec (req_read t'') w' = Returns w'') ∧
            (∃ w'', C.exec (req_write t'') w' = Returns w'')).
Proof.
  intros Hi He Hu Hr.
  destruct (write_gives_owner w0 t w1 Hi He) as (a & Ha & Hh).
  pose proof (Protocol.inv_exec _ _ _ Hi He) as Hi1.
  destruct (run_keeps rs _ a w1 w Hi1 Ha Hu Hr) as [Ha' Hi'].
  by eapply exclusion_concurrent.
Qed.

End exclusion.

(** C2. In every interleaving of client threads on one wrapper instance, of
    either variant: from the moment a call of [write_access_handle] (or
    [write_access]) returns its accessor, and for as long as that accessor
    is neither destroyed nor moved from, a read or write request of any
    thread waits; once the accessor is destroyed, requests of both kinds
    return again.  The same holds of whatever live accessor owns an
    exclusive hold, such as the accessor an exclusive accessor was moved
    into. *)
Theorem mutual_exclusion :
  (∀ T rs (v : T) (w0 w1 : C.world T) t rs' w,
     C.run rs (C.init v) = Returns w0 →
     C.exec (req_write t) w0 = Returns w1 →
     untouched (C.next_obj w0) rs' → C.run rs' w1 = Returns w →
     (∀ t', C.exec (req_read t') w = Blocks ∧ C.exec (req_write t') w = Blocks) ∧
     (∀ t', ∃ w', C.exec (req_destroy t' (C.next_obj w0)) w = Returns w' ∧
        ∀ t'', (∃ w'', C.exec (req_read t'') w' = Returns w'') ∧
               (∃ w'', C.exec (req_write t'') w' = Returns w'')))
  ∧
  (∀ T rs (v : T) (w : C.world T) i a,
     C.run rs (C.init v) = Returns w →
     C.objects w !! i = Some a → C.holds unique_lock a = true →
     (∀ t, C.exec (req_read t) w = Blocks ∧ C.exec (req_write t) w = Blocks) ∧
     (∀ t, ∃ w', C.exec (req_destroy t i) w = Returns w' ∧
        ∀ t', (∃ w'', C.exec (req_read t') w' = Returns w'') ∧
              (∃ w'', C.exec (req_write t') w' = Returns w'')))
  ∧
  (∀ T rs (v : T) (w0 w1 : L.world T) t rs' w,
     L.run rs (L.init v) = Returns w0 →
     L.exec (req_write t) w0 = Returns w1 →
     untouched (L.next_obj w0) rs' → L.run rs' w1 = Returns w →
     (∀ t', L.exec (req_read t') w = Blocks ∧ L.exec (req_write t') w = Blocks) ∧
     (∀ t', ∃ w', L.exec (req_destroy t' (L.next_obj w0)) w = Returns w' ∧
        ∀ t'', (∃ w'', L.exec (req_read t'') w' = Returns w'') ∧
               (∃ w'', L.exec (req_write t'') w' = Returns w'')))
  ∧
  (∀ T rs (v : T) (w : L.world T) i a,
     L.run rs (L.init v) = Returns w →
     L.objects w !! i = Some a → L.holds unique_lock a = true →
     (∀ t, L.exec (req_read t) w = Blocks ∧ L.exec (req_write t) w = Blocks) ∧
     (∀ t, ∃ w', L.exec (req_destroy t i) w = Returns w' ∧
        ∀ t', (∃ w'', L.exec (req_read t') w' = Returns w'') ∧
              (∃ w'', L.exec (req_write t') w' = Returns w''))).
Proof.
  assert (∀ T (w : L.world T) i,
    ((∀ t, C.exec (req_read t) (Refinement.to_world w) = Blocks ∧
           C.exec (req_write t) (Refinement.to_world w) = Blocks) ∧
     (∀ t, ∃ w', C.exec (req_destroy t i) (Refinement.to_world w) = Returns w' ∧
        ∀ t', (∃ w'', C.exec (req_read t') w' = Returns w'') ∧
              (∃ w'', C.exec (req_write t') w' = Returns w''))) →
    (∀ t, L.exec (req_read t) w = Blocks ∧ L.exec (req_write t) w = Blocks) ∧
    (∀ t, ∃ w', L.exec (req_destroy t i) w = Returns w' ∧
       ∀ t', (∃ w'', L.exec (req_read t') w' = Returns w'') ∧
             (∃ w'', L.exec (req_write t') w' = Returns w''))) as Hback.
  { intros T w i [Hb Hd]. split.
    - intros t. destruct (Hb t). split; by apply transfer_blocks.
    - intros t. destruct (Hd t) as (w' & He & Hacq).
      apply transfer_returns in He as (w1 & He & ->).
      exists w1. split; [done|]. intros t'.
      destruct (Hacq t') as [[x Hx] [y Hy]].
      apply transfer_returns in Hx as (x1 & Hx & _).
      apply transfer_returns in Hy as (y1 & Hy & _).
      eauto. }
  split_and!.
  - intros T rs v w0 w1 t rs' w Hr He Hu Hr'.
    eapply write_excludes; [by eapply Protocol.inv_reachable|done..].
  - intros T rs v w i a Hr Ha Hh.
    eapply exclusion_concurrent; [by eapply Protocol.inv_reachable|done..].
  - intros T rs v w0 w1 t rs' w Hr He Hu Hr'.
    apply Simulation.reachable_to_world, Protocol.inv_reachable in Hr.
    apply Hback.
    apply (write_excludes (Refinement.to_world w0) t (Refinement.to_world w1)
             rs' (Refinement.to_world w) Hr).
    + by rewrite Simulation.exec_to_world, He.
    + done.
    + by rewrite Simulation.run_to_world, Hr'.
  - intros T rs v w i a Hr Ha Hh.
    apply Simulation.reachable_to_world in Hr.
    apply Protocol.inv_reachable in Hr.
    assert (C.objects (Refinement.to_world w) !! i
            = Some (Refinement.to_accessor a)) as Ha'
      by (cbn [Refinement.to_world C.objects]; by rewrite lookup_fmap, Ha).
    apply Hback.
    by apply (exclusion_concurrent (Refinement.to_world w) i
                (Refinement.to_accessor a) Hr Ha' Hh).
Qed.

Lemma mutual_exclusion_witness :
  ∃ (wc : C.world nat) (wl : L.world nat),
    C.run [req_write 1; req_assign 1 0 5] (C.init 0) = Returns wc ∧
    (C.exec (req_read 2) wc = Blocks ∧ C.exec (req_write 2) wc = Blocks) ∧
    C.run [req_write 1; req_destroy 1 0; req_read 2] (C.init 0) ≠ Blocks ∧
    L.run [req_write 1; req_assign 1 0 5] (L.init 0) = Returns wl ∧
    (L.exec (req_read 2) wl = Blocks ∧ L.exec (req_write 2) wl = Blocks) ∧
    L.run [req_write 1; req_destroy 1 0; req_read 2] (L.init 0) ≠ Blocks.
Proof.
  eexists _, _. split; [reflexivity|]. split.
  { refine (proj1 (proj1 mutual_exclusion nat [] 0 _ _ 1 [req_assign 1 0 5] _
                     eq_refl eq_refl _ eq_refl) 2).
    repeat constructor. }
  split; [discriminate|]. split; [reflexivity|]. split; [|discriminate].
  refine (proj1 (proj1 (proj2 (proj2 mutual_exclusion)) nat [] 0 _ _ 1
                   [req_assign 1 0 5] _ eq_refl eq_refl _ eq_refl) 2).
  repeat constructor.
Defined.

(** ** Single release *)



Section release.
Context {T : Type}.
Implicit Types (w : C.world T).





(** Destroying a live accessor returns; it gives back the hold its guard
    owns, and touches neither the primitive nor the log when the guard owns
    nothing (a moved-from accessor). *)
Lemma destroy_gives_back w t i a :
  Protocol.inv w → C.objects w !! i = Some a →
  ∃ w', C.exec (req_destroy t i) w = Returns w' ∧
        C.objects w' = delete i (C.objects w) ∧
        C.released w' = C.gives_back a ++ C.released w ∧
        (g_owns (C.lock a) = false →
           C.self w' = C.self w ∧ C.released w' = C.released w).
Proof.
  intros Hi Ha.
  destruct (Protocol.dtor_returns w i a Hi Ha) as (m & Hm & _).
  simpl. rewrite Ha, Hm. simpl. eexists. split; [done|]. simpl.
  split; [done|]. split; [done|].
  intros Ho. unfold C.accessor_dtor, guard_destroy in Hm.
  unfold C.gives_back. rewrite Ho in *. simplify_eq.
  split; [|done]. by destruct (C.self w).
Qed.

Lemma hold_accounting w h :
  Protocol.inv w →
  C.times_released h w + C.owners h w = if decide (h < C.next_hold w) then 1 else 0.
Proof. intros Hi. apply (Protocol.inv_hold w Hi). Qed.


End release.



(** ** Dereference and member access *)

(** C8. [operator*] of an accessor returns the reference the accessor was
    constructed with, in both headers: a reference to const for an accessor
    from [read_access_handle] / [read_access], through which the wrapper's
    resource is read and cannot be assigned, and a mutable reference for one
    from [write_access_handle] / [write_access], through which an assignment
    replaces the wrapper's resource; a moved accessor gives the same
    reference.  Dereference is a total function of the accessor alone, so
    it neither waits nor fails: assigning through a live exclusive accessor
    returns whatever the state of the primitive, and leaves the primitive
    and the accessors as they are. *)
Theorem dereference_view :
  (∀ T hold (c c' : C.concurrent T) a v,
     C.read_access_handle hold c = Returns (c', a) →
     C.deref a = {| ref_const := true |} ∧
     C.load (C.deref a) c' = C.resource c ∧
     C.store (C.deref a) v c' = None)
  ∧
  (∀ T hold (c c' : C.concurrent T) a v,
     C.write_access_handle hold c = Returns (c', a) →
     C.deref a = {| ref_const := false |} ∧
     C.load (C.deref a) c' = C.resource c ∧
     C.store (C.deref a) v c'
       = Some {| C.resource := v; C.lockable := C.lockable c' |})
  ∧
  (∀ T hold (c c' : L.concurrent_resource T) a v,
     L.read_access hold c = Returns (c', a) →
     L.detail.deref a = {| ref_const := true |} ∧
     L.load (L.detail.deref a) c' = L.resource c ∧
     L.store (L.detail.deref a) v c' = None)
  ∧
  (∀ T hold (c c' : L.concurrent_resource T) a v,
     L.write_access hold c = Returns (c', a) →
     L.detail.deref a = {| ref_const := false |} ∧
     L.load (L.detail.deref a) c' = L.resource c ∧
     L.store (L.detail.deref a) v c'
       = Some {| L.rwlock := L.rwlock c'; L.resource := v |})
  ∧
  (∀ a b, C.deref (C.accessor_move a).1 = C.deref a ∧
          L.detail.deref (L.detail.accessor_move b).1 = L.detail.deref b)
  ∧
  (∀ T (w : C.world T) t i a v,
     C.objects w !! i = Some a → C.deref a = {| ref_const := false |} →
     C.exec (req_assign t i v) w
     = Returns {| C.self := {| C.resource := v;
                               C.lockable := C.lockable (C.self w) |};
                  C.objects := C.objects w;
                  C.next_obj := C.next_obj w;
                  C.next_hold := C.next_hold w;
                  C.released := C.released w |}).
Proof.
  split_and!.
  - intros T hold [x []] c' a v H; cbv in H; by simplify_eq.
  - intros T hold [x []] c' a v H; cbv in H; by simplify_eq.
  - intros T hold [[] x] c' a v H; cbv in H; by simplify_eq.
  - intros T hold [[] x] c' a v H; cbv in H; by simplify_eq.
  - done.
  - intros T w t i a v Ha Hd. simpl. rewrite Ha. unfold C.store.
    by rewrite Hd.
Qed.

Lemma dereference_view_witness :
  ∃ (c' : C.concurrent nat) a,
    C.write_access_handle 0 (C.make 7) = Returns (c', a) ∧
    C.load (C.deref a) c' = 7 ∧
    C.store (C.deref a) 9 c'
      = Some {| C.resource := 9; C.lockable := ExclusiveLocked |}.
Proof.
  eexists _, _. split; [reflexivity|].
  pose proof (proj1 (proj2 dereference_view) nat 0 (C.make 7) _ _ 9 eq_refl)
    as (_ & Hl & Hs).
  split; [exact Hl|exact Hs].
Defined.

(** C9 (the code at the failing input).  In [concurrent.hpp] [operator->]
    of an accessor returns the adapter object holding the accessor's
    resource reference, and the adapter's own [operator->], declared
    [decltype(auto)], yields the address of the referent; following the
    overloads from the accessor ends, after these two steps, at a raw
    pointer to the wrapped resource, and a member name is looked up among
    the resource's own members whatever the class of the resource is, a
    pointer-like class included.  In [concurrent_resource.hpp] the accessor
    returns the same kind of adapter, but the adapter's [operator->] is
    declared [const decltype(auto)]: it is ill-formed, following the
    overloads from an accessor never reaches a pointer, and no member
    access [a->m] through an accessor of [concurrent_resource] can be
    compiled, the ones of [main.cpp] included. *)
Theorem legacy_member_access_ill_formed :
  (∀ a,
     C.value (C.arrow a) = C.locked_resource a ∧
     C.decorator_arrow (C.arrow a) = address_of (C.locked_resource a) ∧
     C.drill 2 (C.op_accessor a) = Some (address_of (C.deref a)))
  ∧
  (∀ K a m,
     C.member_access K a m
     = if bool_decide (m ∈ own_members K)
       then Some (m, ref_const (C.deref a)) else None)
  ∧
  (∀ b,
     L.detail.value (L.detail.arrow b) = L.detail.resource b ∧
     L.detail.decorator_arrow (L.detail.arrow b) = None ∧
     ∀ fuel, L.drill fuel (L.op_accessor b) = None)
  ∧
  (∀ K b m, L.member_access K b m = None).
Proof.
  split_and!; try done.
  intros b. split_and!; try done. by intros [|[|fuel]].
Qed.

(** [std::unique_ptr<user_defined_type>] of [main.cpp]: through an
    accessor of [concurrent.hpp] one reaches [reset] of the pointer, not
    [buffer] of the pointee; [buffer] is reached as [( *a )->buffer], by
    the pointer's own [operator->] after dereferencing the accessor. *)
Example arrow_on_unique_ptr (a : C.accessor) :
  C.member_access unique_ptr_of_user_defined_type a "reset"
    = Some ("reset", ref_const (C.deref a)) ∧
  C.member_access unique_ptr_of_user_defined_type a "buffer" = None ∧
  select_pointee unique_ptr_of_user_defined_type "buffer" = Some "buffer" ∧
  select_pointee unique_ptr_of_user_defined_type "reset" = None.
Proof. done. Qed.

(** ** The two wrappers *)

(** C10. With the standard backend the two wrappers behave alike.  Each of
    [read_access] and [read_access_handle] locks the primitive in shared
    mode while it constructs the accessor and yields an accessor whose guard
    owns the hold and whose reference is to const; [write_access] and
    [write_access_handle] do the same in exclusive mode with a mutable
    reference; the destructor of either accessor releases through its
    guard.  Under the renaming of members, every sequence of client requests
    has the same outcome on both wrappers (it returns, waits or is undefined
    on both) and leads to the same primitive state, resource value, live
    accessors and releases; dereference agrees as well.  (Member access by
    [operator->] is no part of this: see C9.) *)
Theorem wrappers_equivalent :
  (∀ T hold (c : C.concurrent T),
     C.read_access_handle hold c
     = (m ← lock_shared (C.lockable c);
        Returns ({| C.resource := C.resource c; C.lockable := m |},
                 {| C.lock := {| g_flavour := shared_lock; g_owns := true;
                                 g_hold := hold |};
                    C.locked_resource := {| ref_const := true |} |})) ∧
     C.write_access_handle hold c
     = (m ← lock (C.lockable c);
        Returns ({| C.resource := C.resource c; C.lockable := m |},
                 {| C.lock := {| g_flavour := unique_lock; g_owns := true;
                                 g_hold := hold |};
                    C.locked_resource := {| ref_const := false |} |})))
  ∧
  (∀ T hold (c : L.concurrent_resource T),
     L.read_access hold c
     = (m ← lock_shared (L.rwlock c);
        Returns ({| L.rwlock := m; L.resource := L.resource c |},
                 {| L.detail.lock := {| g_flavour := shared_lock;
                                        g_owns := true; g_hold := hold |};
                    L.detail.resource := {| ref_const := true |} |})) ∧
     L.write_access hold c
     = (m ← lock (L.rwlock c);
        Returns ({| L.rwlock := m; L.resource := L.resource c |},
                 {| L.detail.lock := {| g_flavour := unique_lock;
                                        g_owns := true; g_hold := hold |};
                    L.detail.resource := {| ref_const := false |} |})))
  ∧
  (∀ hold rf m,
     C.accessor_dtor {| C.lock := {| g_flavour := shared_lock; g_owns := true;
                                     g_hold := hold |};
                        C.locked_resource := rf |} m = unlock_shared m ∧
     C.accessor_dtor {| C.lock := {| g_flavour := unique_lock; g_owns := true;
                                     g_hold := hold |};
                        C.locked_resource := rf |} m = unlock m)
  ∧
  (∀ a m,
     C.accessor_dtor (Refinement.to_accessor a) m = L.detail.accessor_dtor a m ∧
     C.deref (Refinement.to_accessor a) = L.detail.deref a)
  ∧
  (∀ T rs (v : T),
     C.run rs (C.init v) = Refinement.to_world <$> L.run rs (L.init v)).
Proof.
  split_and!.
  - intros T hold c. unfold C.read_access_handle, C.write_access_handle,
      C.accessor_ctor, guard_lock.
    by destruct (C.lockable c).
  - intros T hold c. unfold L.read_access, L.write_access,
      L.detail.accessor_ctor, guard_lock.
    by destruct (L.rwlock c).
  - done.
  - done.
  - intros T rs v. apply Simulation.run_init_to_world.
Qed.

Lemma wrappers_equivalent_witness :
  ∃ (wl : L.world nat) (wc : C.world nat),
    L.run [req_read 1; req_read 2; req_destroy 1 0; req_destroy 2 1;
           req_write 3; req_assign 3 2 7] (L.init 0) = Returns wl ∧
    C.run [req_read 1; req_read 2; req_destroy 1 0; req_destroy 2 1;
           req_write 3; req_assign 3 2 7] (C.init 0) = Returns wc ∧
    wc = Refinement.to_world wl ∧
    L.rwlock (L.self wl) = ExclusiveLocked ∧ L.resource (L.self wl) = 7 ∧
    L.run [req_write 1; req_read 2] (L.init 0) = Blocks ∧
    C.run [req_write 1; req_read 2] (C.init 0) = Blocks.
Proof.
  eexists _, _. split; [reflexivity|].
  pose proof (proj2 (proj2 (proj2 (proj2 wrappers_equivalent))) nat
    [req_read 1; req_read 2; req_destroy 1 0; req_destroy 2 1;
     req_write 3; req_assign 3 2 7] 0) as E.
  pose proof (proj2 (proj2 (proj2 (proj2 wrappers_equivalent))) nat
    [req_write 1; req_read 2] 0) as E'.
  split; [exact E|]. split; [reflexivity|]. split; [reflexivity|].
  split; [reflexivity|]. split; [reflexivity|]. exact E'.
Defined.

(** ** The unsafe entry points *)

(** C4 (the code at the failing input). [unsafe_read_access] and
    [unsafe_write_access] return [detail::read_accessor] and
    [detail::write_accessor] from the braced list [{resource}]; these
    classes have the one constructor [(resource, mtx)], so neither member
    function can be compiled once it is called, whereas [read_access] and
    [write_access] can. *)
Lemma unsafe_access_ill_formed :
  L.well_formed L.unsafe_read_access_fn = false ∧
  L.well_formed L.unsafe_write_access_fn = false ∧
  L.well_formed L.read_access_fn = true ∧
  L.well_formed L.write_access_fn = true.
Proof. done. Qed.

(** ** Capability concepts *)

Import Traits.

Lemma compound_req_provides L f R : compound_req L f R = true → provides L f = true.
Proof. unfold compound_req, provides. by destruct (L f). Qed.

(** A lockable that satisfies a concept has every member function the
    concept names. *)
Lemma satisfies_provides k L f :
  satisfies k L = true → f ∈ names k → provides L f = true.
Proof.
  destruct k; simpl; intros Hs Hf.
  - by apply elem_of_nil in Hf.
  - unfold basic_lockable in Hs. apply andb_true_iff in Hs as [H1 H2].
    set_unfold. destruct Hf as [->|[->|[]]]; eauto using compound_req_provides.
  - unfold basic_shared_lockable, basic_lockable in Hs.
    apply andb_true_iff in Hs as [[H1 H2]%andb_true_iff [H3 H4]%andb_true_iff].
    set_unfold.
    destruct Hf as [->|[->|[->|[->|[]]]]]; eauto using compound_req_provides.
Qed.

(** For the instantiations the library makes, the concept names every call. *)
Lemma library_use_named c f :
  library_use c = true → f ∈ calls c → f ∈ names (constraint c).
Proof.
  destruct c as [g|[]|[]|[] []|]; simpl; try done; intros _ Hf; set_unfold;
    tauto.
Qed.

(** C5. For each template that takes the lockable as a parameter, with
    whatever guards: when the lockable lacks a member function that the
    template's code calls on it, the instantiation is rejected by the
    compiler, and it is the concept on the parameter that rejects it as
    soon as the concept names that function; an accepted instantiation
    finds every call it makes, so no call can be missing when the program
    runs.  For the instantiations the library makes itself ([concurrent]
    with a shared and a unique guard, and its two accessor aliases) the
    concept names every call, so for instance a lockable without
    [lock_shared] is always turned down by the concept. *)
Theorem capability_gating (c : template) (L : candidate) :
  (∀ f, f ∈ calls c → provides L f = false →
     instantiate c L ≠ Accepted ∧
     (f ∈ names (constraint c) → instantiate c L = Rejected_by_constraint))
  ∧
  (instantiate c L = Accepted → ∀ f, f ∈ calls c → provides L f = true)
  ∧
  (library_use c = true → ∀ f, f ∈ calls c → f ∈ names (constraint c)).
Proof.
  split_and!.
  - intros f Hf Hp. unfold instantiate.
    destruct (satisfies (constraint c) L) eqn:Hc.
    + destruct (forallb _ _) eqn:Hall.
      * rewrite forallb_forall in Hall.
        apply list_elem_of_In, Hall in Hf. congruence.
      * split; [done|]. intros Hn.
        pose proof (satisfies_provides _ L f Hc Hn). congruence.
    + done.
  - unfold instantiate. intros Hi f Hf.
    destruct (satisfies (constraint c) L); [|done].
    destruct (forallb _ _) eqn:Hall; [|done].
    rewrite forallb_forall in Hall. by apply Hall, list_elem_of_In.
  - intros Hu f. by apply library_use_named.
Qed.

Lemma capability_gating_witness :
  instantiate (tpl_concurrent use_shared_lock use_unique_lock) std_mutex
    = Rejected_by_constraint ∧
  instantiate (tpl_accessor use_shared_lock) std_mutex = Rejected_in_body ∧
  instantiate (tpl_exclusive_accessor use_shared_lock) std_mutex
    = Rejected_in_body ∧
  instantiate (tpl_concurrent use_shared_lock use_unique_lock) std_shared_mutex
    = Accepted.
Proof.
  split; [|done].
  refine (proj2 (proj1 (capability_gating
            (tpl_concurrent use_shared_lock use_unique_lock) std_mutex)
            fn_lock_shared _ eq_refl) _).
  - apply list_elem_of_In. simpl. tauto.
  - apply list_elem_of_In. simpl. tauto.
Defined.

(** C6. The capability predicates form a hierarchy: for every type,
    [timed_lockable] implies [lockable] implies [basic_lockable], and
    [shared_timed_lockable] implies [shared_lockable] implies
    [basic_shared_lockable] implies [basic_lockable]; every step is strict,
    a type satisfies the weaker predicate and not the stronger one. *)
Theorem capability_hierarchy :
  (∀ T : candidate,
     (timed_lockable T = true → lockable T = true) ∧
     (lockable T = true → basic_lockable T = true) ∧
     (shared_timed_lockable T = true → shared_lockable T = true) ∧
     (shared_lockable T = true → basic_shared_lockable T = true) ∧
     (basic_shared_lockable T = true → basic_lockable T = true))
  ∧
  (lockable std_mutex = true ∧ timed_lockable std_mutex = false) ∧
  (basic_lockable bare_lock = true ∧ lockable bare_lock = false) ∧
  (shared_lockable std_shared_mutex = true ∧
   shared_timed_lockable std_shared_mutex = false) ∧
  (basic_shared_lockable bare_shared_lock = true ∧
   shared_lockable bare_shared_lock = false) ∧
  (basic_lockable std_mutex = true ∧ basic_shared_lockable std_mutex = false).
Proof.
  split; [|done].
  intros T. unfold timed_lockable, lockable, shared_timed_lockable,
    shared_lockable, basic_shared_lockable.
  split_and!; by intros [? _]%andb_true_iff.
Qed.

Lemma capability_hierarchy_witness :
  basic_lockable std_shared_timed_mutex = true.
Proof.
  destruct (proj1 capability_hierarchy std_shared_timed_mutex)
    as (_ & _ & H1 & H2 & H3).
  apply H3, H2, H1. reflexivity.
Defined.

(** ** Blocking acquisition and bounded waits *)

(** C7, as stated, fails: [std::shared_timed_mutex] satisfies
    [timed_lockable] and [shared_timed_lockable] and is accepted as the
    lockable of [concurrent], yet the wrapper has no entry point that
    answers with a success flag. *)
Lemma timed_backend_without_bounded_wait :
  timed_lockable std_shared_timed_mutex = true ∧
  shared_timed_lockable std_shared_timed_mutex = true ∧
  instantiate (tpl_concurrent use_shared_lock use_unique_lock)
    std_shared_timed_mutex = Accepted ∧
  bounded_wait_entry_points (concurrent_members std_shared_timed_mutex) = [].
Proof. done. Qed.

(** C7, amended. The blocking acquisitions of both wrappers never fail: in
    any state a read request returns unless the primitive is held
    exclusively, in which case it waits, and a write request returns when
    the primitive is unlocked and waits otherwise; neither is ever
    undefined, and all entry points are [noexcept].  Neither wrapper has a
    bounded-wait entry point answering with a success flag, whatever
    capability the lockable satisfies. *)
Theorem blocking_acquire_total :
  (∀ T (w : C.world T) t,
     (C.lockable (C.self w) = ExclusiveLocked ∧ C.exec (req_read t) w = Blocks
      ∨ C.lockable (C.self w) ≠ ExclusiveLocked ∧
        ∃ w', C.exec (req_read t) w = Returns w') ∧
     (C.lockable (C.self w) ≠ Unlocked ∧ C.exec (req_write t) w = Blocks
      ∨ C.lockable (C.self w) = Unlocked ∧
        ∃ w', C.exec (req_write t) w = Returns w'))
  ∧
  (∀ T (w : L.world T) t,
     (L.rwlock (L.self w) = ExclusiveLocked ∧ L.exec (req_read t) w = Blocks
      ∨ L.rwlock (L.self w) ≠ ExclusiveLocked ∧
        ∃ w', L.exec (req_read t) w = Returns w') ∧
     (L.rwlock (L.self w) ≠ Unlocked ∧ L.exec (req_write t) w = Blocks
      ∨ L.rwlock (L.self w) = Unlocked ∧
        ∃ w', L.exec (req_write t) w = Returns w'))
  ∧
  (∀ K : candidate,
     bounded_wait_entry_points (concurrent_members K) = [] ∧
     Forall (λ d, md_noexcept d = true) (concurrent_members K))
  ∧
  bounded_wait_entry_points concurrent_resource_members = [] ∧
  Forall (λ d, md_noexcept d = true) concurrent_resource_members.
Proof.
  split_and!.
  - intros T w t. simpl.
    unfold C.read_access_handle, C.write_access_handle, C.accessor_ctor,
      guard_lock.
    destruct (C.lockable (C.self w)); simpl; split; eauto.
  - intros T w t. simpl.
    unfold L.read_access, L.write_access, L.detail.accessor_ctor, guard_lock.
    destruct (L.rwlock (L.self w)); simpl; split; eauto.
  - intros K. split; [done|]. repeat constructor.
  - done.
  - repeat constructor.
Qed.

(* ===================================================================== *)
(** * Further properties of [concurrent]                                  *)
(* ===================================================================== *)

Module Holders.
Import Counting.

Section count_more.
Context {A : Type} (P : A → bool).
Implicit Types (m : gmap nat A).

Lemma count_if_zero m :
  count_if P m = 0 ↔ ∀ i x, m !! i = Some x → P x = false.
Proof.
  split.
  - intros H0 i x Hi. destruct (P x) eqn:Hx; [|done].
    pose proof (count_if_lookup P m i x Hi Hx). lia.
  - induction m as [|i x m Hi IH] using map_ind; intros H.
    + apply count_if_empty.
    + rewrite count_if_insert_fresh by done.
      rewrite IH.
      * unfold weight. rewrite (H i x); [done|apply lookup_insert_eq].
      * intros j y Hj. apply (H j).
        rewrite lookup_insert_ne; [done|]. intros ->. congruence.
Qed.

Lemma count_if_pos m :
  1 ≤ count_if P m → ∃ i x, m !! i = Some x ∧ P x = true.
Proof.
  induction m as [|i x m Hi IH] using map_ind.
  - rewrite count_if_empty. lia.
  - rewrite count_if_insert_fresh by done. unfold weight.
    destruct (P x) eqn:Hx.
    + intros _. exists i, x. by rewrite lookup_insert_eq.
    + intros H. destruct IH as (j & y & Hj & Hy); [lia|].
      exists j, y. split; [|done].
      rewrite lookup_insert_ne; [done|]. intros ->. congruence.
Qed.

Lemma count_if_two m i j x y :
  i ≠ j → m !! i = Some x → m !! j = Some y →
  P x = true → P y = true → 2 ≤ count_if P m.
Proof.
  intros Hij Hi Hj Hx Hy.
  pose proof (count_if_delete P m i x Hi) as E1.
  assert (delete i m !! j = Some y) as Hj' by by rewrite lookup_delete_ne.
  pose proof (count_if_lookup P _ j y Hj' Hy).
  unfold weight in E1. rewrite Hx in E1. lia.
Qed.

End count_more.
End Holders.

Section concurrent_more.
Context {T : Type}.
Implicit Types (w : C.world T) (a : C.accessor).

Lemma owns_holds a :
  g_owns (C.lock a) = C.holds shared_lock a || C.holds unique_lock a.
Proof.
  unfold C.holds. destruct a as [[[] []] ?]; done.
Qed.

Lemma unlocked_iff_none_held w :
  Protocol.inv w →
  C.lockable (C.self w) = Unlocked ↔
  C.shared_held w = 0 ∧ C.exclusive_held w = 0.
Proof.
  intros Hi. pose proof (Protocol.inv_lock w Hi) as Hl.
  destruct (C.lockable (C.self w)); simpl in Hl; split; intros H;
    try done; lia.
Qed.

Lemma none_held_iff_no_owner w :
  C.shared_held w = 0 ∧ C.exclusive_held w = 0 ↔
  ∀ i a, C.objects w !! i = Some a → g_owns (C.lock a) = false.
Proof.
  unfold C.shared_held, C.exclusive_held. rewrite !Holders.count_if_zero.
  split.
  - intros [Hs Hx] i a Ha. rewrite owns_holds, (Hs i a Ha), (Hx i a Ha). done.
  - intros H. split; intros i a Ha; specialize (H i a Ha);
      rewrite owns_holds in H; by apply orb_false_iff in H as [? ?].
Qed.

(** X1. The primitive is unlocked exactly when no live accessor owns a hold;
    in particular it is unlocked when no accessor is alive, and when it is
    locked some live accessor owns a hold and its destruction returns. *)
Theorem no_lock_leak rs (v : T) w :
  C.run rs (C.init v) = Returns w →
  (C.lockable (C.self w) = Unlocked ↔
     ∀ i a, C.objects w !! i = Some a → g_owns (C.lock a) = false) ∧
  (C.objects w = ∅ → C.lockable (C.self w) = Unlocked) ∧
  (C.lockable (C.self w) ≠ Unlocked →
     ∃ i a, C.objects w !! i = Some a ∧ g_owns (C.lock a) = true ∧
            ∀ t, ∃ w', C.exec (req_destroy t i) w = Returns w').
Proof.
  intros Hr. apply Protocol.inv_reachable in Hr.
  pose proof (unlocked_iff_none_held w Hr) as E1.
  pose proof (none_held_iff_no_owner w) as E2.
  split_and!.
  - by rewrite E1, E2.
  - intros He. apply E1, E2. intros i a. by rewrite He, lookup_empty.
  - intros Hne.
    assert (1 ≤ C.shared_held w ∨ 1 ≤ C.exclusive_held w) as [H|H].
    { destruct (decide (C.shared_held w = 0 ∧ C.exclusive_held w = 0)) as [H0|H0].
      - by apply E1 in H0.
      - lia. }
    + apply Holders.count_if_pos in H as (i & a & Ha & Hh).
      exists i, a. split; [done|]. split.
      * rewrite owns_holds, Hh. done.
      * intros t. destruct (destroy_gives_back w t i a Hr Ha) as (w' & ? & _).
        eauto.
    + apply Holders.count_if_pos in H as (i & a & Ha & Hh).
      exists i, a. split; [done|]. split.
      * rewrite owns_holds, Hh. apply orb_true_r.
      * intros t. destruct (destroy_gives_back w t i a Hr Ha) as (w' & ? & _).
        eauto.
Qed.

End concurrent_more.

Lemma no_lock_leak_witness :
  ∃ w : C.world nat,
    C.run [req_read 1; req_write 2] (C.init 0) = Blocks ∧
    C.run [req_read 1; req_move 1 0; req_destroy 1 0; req_destroy 2 1]
      (C.init 0) = Returns w ∧
    C.lockable (C.self w) = Unlocked.
Proof.
  eexists. split; [reflexivity|]. split; [reflexivity|].
  refine (proj1 (proj2 (no_lock_leak
    [req_read 1; req_move 1 0; req_destroy 1 0; req_destroy 2 1] 0 _
    eq_refl)) eq_refl).
Defined.


(** The value a request leaves in the resource. *)
Definition assigns {T} (x : T) (r : request T) : T :=
  match r with
  | req_assign _ _ v => v
  | _ => x
  end.

Section concurrent_use.
Context {T : Type}.
Implicit Types (w : C.world T) (a : C.accessor).

Lemma read_returns w t :
  Protocol.inv w → C.exclusive_held w = 0 →
  ∃ w', C.exec (req_read t) w = Returns w' ∧ Protocol.inv w' ∧
        C.shared_held w' = S (C.shared_held w) ∧ C.exclusive_held w' = 0.
Proof.
  intros Hi Hx.
  pose proof (Protocol.inv_acquire_shared w (C.next_hold w) Hi) as Ha.
  pose proof (Protocol.inv_read w t) as Hp.
  simpl in Hp |- *.
  destruct (C.read_access_handle _ _) as [ca| |].
  - destruct Ha as (_ & _ & _ & Hlk).
    eexists. split; [done|].
    specialize (Hp _ Hi eq_refl). split; [done|].
    pose proof (Protocol.inv_lock _ Hp) as Hl.
    cbn [C.acquired C.self] in Hl. rewrite Hlk in Hl. simpl in Hl. lia.
  - pose proof (Protocol.inv_lock w Hi) as Hl. rewrite Ha in Hl.
    simpl in Hl. lia.
  - done.
Qed.

Lemma reads_return ts : ∀ w,
  Protocol.inv w → C.exclusive_held w = 0 →
  ∃ w', C.run (req_read <$> ts) w = Returns w' ∧
        C.shared_held w' = C.shared_held w + length ts ∧
        C.exclusive_held w' = 0.
Proof.
  induction ts as [|t ts IH]; intros w Hi Hx.
  - exists w. simpl. split; [done|]. lia.
  - destruct (read_returns w t Hi Hx) as (w1 & He & Hi1 & Hs1 & Hx1).
    destruct (IH w1 Hi1 Hx1) as (w' & Hr & Hs & Hx').
    exists w'. cbn [fmap list_fmap C.run]. rewrite He. simpl.
    split; [done|]. simpl. lia.
Qed.

(** X2. Readers share: when no exclusive guard is held, any number of read
    requests return one after the other and all their guards are held
    together; a write request waits as long as one shared guard is held,
    and returns once the last reader's accessor is destroyed. *)
Theorem shared_concurrency rs (v : T) w :
  C.run rs (C.init v) = Returns w →
  (C.exclusive_held w = 0 →
     ∀ ts, ∃ w', C.run (req_read <$> ts) w = Returns w' ∧
                 C.shared_held w' = C.shared_held w + length ts ∧
                 C.exclusive_held w' = 0) ∧
  (1 ≤ C.shared_held w → ∀ t, C.exec (req_write t) w = Blocks) ∧
  (C.shared_held w = 1 →
     ∀ t t' i a, C.objects w !! i = Some a → C.holds shared_lock a = true →
       ∃ w' w'', C.exec (req_destroy t i) w = Returns w' ∧
                 C.exec (req_write t') w' = Returns w'').
Proof.
  intros Hr. apply Protocol.inv_reachable in Hr.
  pose proof (Protocol.inv_lock w Hr) as Hl.
  split_and!.
  - intros Hx ts. by apply reads_return.
  - intros Hs t. simpl.
    unfold C.write_access_handle, C.accessor_ctor, guard_lock.
    destruct (C.lockable (C.self w)); simpl in *; [lia|done|lia].
  - intros Hs t t' i a Ha Hh.
    destruct (Protocol.dtor_returns w i a Hr Ha) as (m & Hm & Hag).
    unfold Counting.weight in Hag. rewrite Hh, Hs in Hag.
    assert (C.holds unique_lock a = false) as Hu.
    { unfold C.holds in *. destruct (g_flavour (C.lock a)); [done|].
      by rewrite bool_decide_eq_false_2 in Hh. }
    rewrite Hu in Hag.
    assert (C.exclusive_held w = 0) as Hx
      by (destruct (C.lockable (C.self w)); simpl in Hl; lia).
    rewrite Hx in Hag.
    assert (m = Unlocked) as -> by (destruct m; simpl in Hag; [done|lia..]).
    simpl. rewrite Ha, Hm. simpl. eexists _, _. split; [done|].
    reflexivity.
Qed.

(** X3. Two live accessors that both own a hold are both shared ones: an
    owning exclusive accessor is the only owning accessor. *)
Theorem owners_pairwise_shared rs (v : T) w i j a b :
  C.run rs (C.init v) = Returns w →
  i ≠ j → C.objects w !! i = Some a → C.objects w !! j = Some b →
  g_owns (C.lock a) = true → g_owns (C.lock b) = true →
  g_flavour (C.lock a) = shared_lock ∧ g_flavour (C.lock b) = shared_lock.
Proof.
  intros Hr Hij Ha Hb Hoa Hob. apply Protocol.inv_reachable in Hr.
  pose proof (Protocol.inv_lock w Hr) as Hl.
  unfold C.shared_held, C.exclusive_held in Hl.
  assert (∀ fl (x : C.accessor),
            g_owns (C.lock x) = true → g_flavour (C.lock x) = fl →
            C.holds fl x = true) as Hh.
  { intros fl x Hox <-. unfold C.holds.
    by rewrite Hox, bool_decide_eq_true_2. }
  destruct (g_flavour (C.lock a)) eqn:Hfa, (g_flavour (C.lock b)) eqn:Hfb;
    [done|..].
  - pose proof (Counting.count_if_lookup _ _ _ _ Ha (Hh _ _ Hoa Hfa)).
    pose proof (Counting.count_if_lookup _ _ _ _ Hb (Hh _ _ Hob Hfb)).
    destruct (C.lockable (C.self w)); simpl in Hl; lia.
  - pose proof (Counting.count_if_lookup _ _ _ _ Ha (Hh _ _ Hoa Hfa)).
    pose proof (Counting.count_if_lookup _ _ _ _ Hb (Hh _ _ Hob Hfb)).
    destruct (C.lockable (C.self w)); simpl in Hl; lia.
  - pose proof (Holders.count_if_two _ _ _ _ _ _ Hij Ha Hb
                  (Hh _ _ Hoa Hfa) (Hh _ _ Hob Hfb)).
    destruct (C.lockable (C.self w)); simpl in Hl; lia.
Qed.


Lemma exec_assigns (r : request T) w w' :
  C.exec r w = Returns w' →
  C.resource (C.self w') = assigns (C.resource (C.self w)) r.
Proof.
  destruct r as [t|t|t src|t obj|t obj x]; simpl.
  - unfold C.read_access_handle, C.accessor_ctor, guard_lock.
    destruct (C.lockable (C.self w)); simpl; intros; by simplify_eq.
  - unfold C.write_access_handle, C.accessor_ctor, guard_lock.
    destruct (C.lockable (C.self w)); simpl; intros; by simplify_eq.
  - destruct (C.objects w !! src); intros; by simplify_eq.
  - destruct (C.objects w !! obj) as [a|]; [|done].
    destruct (C.accessor_dtor _ _); simpl; intros; by simplify_eq.
  - destruct (C.objects w !! obj) as [a|]; [|done].
    unfold C.store. destruct (ref_const _); intros; by simplify_eq.
Qed.

(** X5. Only an assignment through an accessor changes the resource: after a
    run the resource holds the value of the last assignment of the run, or
    its old value when the run assigns nothing. *)
Theorem resource_follows_assignments rs w w' :
  C.run rs w = Returns w' →
  C.resource (C.self w') = foldl assigns (C.resource (C.self w)) rs.
Proof.
  revert w. induction rs as [|r rs IH]; intros w Hr; simpl in Hr.
  - by simplify_eq.
  - destruct (C.exec r w) as [w1| |] eqn:E; [|done..]. simpl in Hr.
    rewrite (IH _ Hr). simpl. by rewrite (exec_assigns _ _ _ E).
Qed.

(** X6. Handing an accessor on: moving it into a new object and destroying the
    source leaves the primitive, the resource and the log as they were,
    and the new object is the old accessor, guard included. *)
Theorem move_then_destroy_source rs (v : T) w t i a :
  C.run rs (C.init v) = Returns w → C.objects w !! i = Some a →
  C.run [req_move t i; req_destroy t i] w
  = Returns {| C.self := C.self w;
               C.objects := <[C.next_obj w := a]> (delete i (C.objects w));
               C.next_obj := S (C.next_obj w);
               C.next_hold := C.next_hold w;
               C.released := C.released w |}.
Proof.
  intros Hr Ha. apply Protocol.inv_reachable in Hr.
  assert (i ≠ C.next_obj w) as Hne.
  { intros ->. rewrite (Protocol.inv_fresh w Hr) in Ha; [done|lia]. }
  cbn [C.run]. cbn [C.exec]. rewrite Ha. cbn [mbind outcome_bind].
  cbn [C.exec C.objects].
  rewrite lookup_insert_ne, lookup_insert_eq by done.
  unfold C.accessor_dtor, guard_destroy, C.gives_back. simpl.
  f_equal. destruct (C.self w), a. simpl. f_equal.
  rewrite delete_insert_ne, delete_insert_eq by done. done.
Qed.

End concurrent_use.

Lemma shared_concurrency_witness :
  ∃ w : C.world nat,
    C.run (req_read <$> [1; 2; 3]) (C.init 0) = Returns w ∧
    C.shared_held w = 3 ∧ C.exec (req_write 4) w = Blocks.
Proof.
  destruct (proj1 (shared_concurrency [] 0 (C.init 0) eq_refl) eq_refl
              [1; 2; 3]) as (w & Hr & Hs & Hx).
  exists w. split; [exact Hr|]. split; [exact Hs|].
  refine (proj1 (proj2 (shared_concurrency (req_read <$> [1; 2; 3]) 0 w Hr))
            _ 4).
  rewrite Hs. simpl. lia.
Defined.

Lemma owners_pairwise_shared_witness :
  ∃ (w : C.world nat) a b,
    C.run [req_read 1; req_read 2] (C.init 0) = Returns w ∧
    C.objects w !! 0 = Some a ∧ C.objects w !! 1 = Some b ∧
    g_flavour (C.lock a) = shared_lock ∧ g_flavour (C.lock b) = shared_lock.
Proof.
  eexists _, _, _. split; [reflexivity|]. split; [reflexivity|].
  split; [reflexivity|].
  refine (owners_pairwise_shared [req_read 1; req_read 2] 0 _ 0 1 _ _
            eq_refl _ eq_refl eq_refl eq_refl eq_refl).
  discriminate.
Defined.


Lemma resource_follows_assignments_witness :
  ∃ w : C.world nat,
    C.run [req_write 1; req_assign 1 0 5; req_assign 1 0 7; req_destroy 1 0]
      (C.init 0) = Returns w ∧
    C.resource (C.self w) = 7.
Proof.
  eexists. split; [reflexivity|].
  refine (resource_follows_assignments
    [req_write 1; req_assign 1 0 5; req_assign 1 0 7; req_destroy 1 0]
    (C.init 0) _ eq_refl).
Defined.

Lemma move_then_destroy_source_witness :
  ∃ (w : C.world nat) a,
    C.run [req_write 1] (C.init 0) = Returns w ∧
    C.objects w !! 0 = Some a ∧
    C.run [req_move 1 0; req_destroy 1 0] w
    = Returns {| C.self := C.self w;
                 C.objects := <[1 := a]> (delete 0 (C.objects w));
                 C.next_obj := 2; C.next_hold := 1; C.released := [] |}.
Proof.
  eexists _, _. split; [reflexivity|]. split; [reflexivity|].
  refine (move_then_destroy_source [req_write 1] 0 _ 1 0 _ eq_refl eq_refl).
Defined.

(* ===================================================================== *)
(** * Further properties of the capability concepts                       *)
(* ===================================================================== *)

(** [L'] has every call of [L], with the same type. *)
Definition extends (L L' : candidate) : Prop :=
  ∀ f r, L f = Some r → L' f = Some r.

(** A reader-writer lock with shared try and timed variants and no
    exclusive [try_lock]. *)
Definition shared_timed_only : candidate := λ f,
  match f with
  | fn_lock | fn_unlock | fn_lock_shared | fn_unlock_shared => Some r_void
  | fn_try_lock_shared | fn_try_lock_shared_for | fn_try_lock_shared_until =>
      Some r_bool
  | _ => None
  end.

(** A reader-writer lock whose [unlock] answers with a flag. *)
Definition flagged_unlock : candidate := λ f,
  match f with
  | fn_lock | fn_lock_shared | fn_unlock_shared => Some r_void
  | fn_unlock => Some r_bool
  | _ => None
  end.

Lemma compound_req_iff T f R : compound_req T f R = true ↔ T f = Some R.
Proof.
  unfold compound_req. destruct (T f) as [R'|]; [|done].
  destruct R, R'; simpl; split; congruence.
Qed.

Lemma compound_req_extends L L' f R :
  extends L L' → compound_req L f R = true → compound_req L' f R = true.
Proof. rewrite !compound_req_iff. auto. Qed.

Lemma provides_extends L L' f :
  extends L L' → provides L f = true → provides L' f = true.
Proof.
  unfold provides. intros He. destruct (L f) as [r|] eqn:E; [|done].
  by rewrite (He _ _ E).
Qed.

Ltac concept_mono He :=
  repeat match goal with
  | H : _ && _ = true |- _ => apply andb_true_iff in H as [? ?]
  | |- _ && _ = true => apply andb_true_iff; split
  | |- compound_req _ _ _ = true => by eapply compound_req_extends
  end.

(** X7. Adding member functions to a lock type never loses a capability: what
    satisfies one of the six concepts still does after it is extended, and
    an accepted instantiation stays accepted. *)
Theorem concepts_monotone (L L' : candidate) :
  extends L L' →
  (basic_lockable L = true → basic_lockable L' = true) ∧
  (lockable L = true → lockable L' = true) ∧
  (timed_lockable L = true → timed_lockable L' = true) ∧
  (basic_shared_lockable L = true → basic_shared_lockable L' = true) ∧
  (shared_lockable L = true → shared_lockable L' = true) ∧
  (shared_timed_lockable L = true → shared_timed_lockable L' = true) ∧
  (∀ c, instantiate c L = Accepted → instantiate c L' = Accepted).
Proof.
  intros He.
  assert (basic_lockable L = true → basic_lockable L' = true) as H1
    by (unfold basic_lockable; intros H; concept_mono He).
  assert (basic_shared_lockable L = true → basic_shared_lockable L' = true)
    as H4 by (unfold basic_shared_lockable; intros H; concept_mono He; auto).
  split_and!; try done.
  - unfold lockable. intros H. concept_mono He. auto.
  - unfold timed_lockable, lockable. intros H. concept_mono He. auto.
  - unfold shared_lockable. intros H. concept_mono He. auto.
  - unfold shared_timed_lockable, shared_lockable. intros H.
    concept_mono He. auto.
  - intros c. unfold instantiate.
    destruct (satisfies (constraint c) L) eqn:Hs; [|done].
    destruct (forallb (provides L) (calls c)) eqn:Hall; [|done].
    intros _.
    assert (satisfies (constraint c) L' = true) as ->
      by (destruct (constraint c); simpl in *; auto).
    assert (forallb (provides L') (calls c) = true) as ->; [|done].
    rewrite forallb_forall in Hall |- *.
    intros f Hf. eapply provides_extends; eauto.
Qed.

Lemma concepts_monotone_witness :
  instantiate (tpl_concurrent use_shared_lock use_unique_lock)
    std_shared_timed_mutex = Accepted.
Proof.
  refine (proj2 (proj2 (proj2 (proj2 (proj2 (proj2
    (concepts_monotone std_shared_mutex std_shared_timed_mutex _))))))
    (tpl_concurrent use_shared_lock use_unique_lock) eq_refl).
  intros [] r; simpl; congruence.
Defined.

(** X8. The return types are part of the shape: a type whose [lock] or
    [unlock] is missing or does not return [void] satisfies none of the six
    concepts, and every template with a concept on its lockable turns it
    down by that concept, even when the guards could make all their
    calls. *)
Theorem void_lock_unlock_required (T : candidate) (f : member_fn) :
  f = fn_lock ∨ f = fn_unlock → T f ≠ Some r_void →
  basic_lockable T = false ∧ lockable T = false ∧ timed_lockable T = false ∧
  basic_shared_lockable T = false ∧ shared_lockable T = false ∧
  shared_timed_lockable T = false ∧
  (∀ c, constraint c ≠ unconstrained →
        instantiate c T = Rejected_by_constraint).
Proof.
  intros Hf Hv.
  assert (basic_lockable T = false) as Hb.
  { unfold basic_lockable. apply andb_false_iff.
    destruct Hf as [-> | ->]; [left|right];
      apply not_true_is_false; by rewrite compound_req_iff. }
  assert (basic_shared_lockable T = false) as Hs
    by (unfold basic_shared_lockable; by rewrite Hb).
  unfold shared_timed_lockable, shared_lockable, timed_lockable, lockable.
  rewrite Hs, Hb. split_and!; try done.
  intros c Hc. unfold instantiate.
  destruct (constraint c); simpl; [done|by rewrite Hb|by rewrite Hs].
Qed.

Lemma void_lock_unlock_required_witness :
  forallb (provides flagged_unlock)
    (calls (tpl_concurrent use_shared_lock use_unique_lock)) = true ∧
  instantiate (tpl_concurrent use_shared_lock use_unique_lock) flagged_unlock
    = Rejected_by_constraint.
Proof.
  split; [reflexivity|].
  refine (proj2 (proj2 (proj2 (proj2 (proj2 (proj2
    (void_lock_unlock_required flagged_unlock fn_unlock (or_intror eq_refl) _))))))
    (tpl_concurrent use_shared_lock use_unique_lock) _); discriminate.
Defined.

(** X9. What the two largest concepts ask for, member by member; the shared
    chain never asks for the exclusive try variants, so neither chain
    implies the other. *)
Theorem concept_requirements :
  (∀ T : candidate,
     timed_lockable T = true ↔
     T fn_lock = Some r_void ∧ T fn_unlock = Some r_void ∧
     T fn_try_lock = Some r_bool ∧
     T fn_try_lock_for = Some r_bool ∧ T fn_try_lock_until = Some r_bool)
  ∧
  (∀ T : candidate,
     shared_timed_lockable T = true ↔
     T fn_lock = Some r_void ∧ T fn_unlock = Some r_void ∧
     T fn_lock_shared = Some r_void ∧ T fn_unlock_shared = Some r_void ∧
     T fn_try_lock_shared = Some r_bool ∧
     T fn_try_lock_shared_for = Some r_bool ∧
     T fn_try_lock_shared_until = Some r_bool)
  ∧
  (shared_timed_lockable shared_timed_only = true ∧
   lockable shared_timed_only = false)
  ∧
  (timed_lockable std_timed_mutex = true ∧
   basic_shared_lockable std_timed_mutex = false).
Proof.
  split_and!; try done.
  - intros T. unfold timed_lockable, lockable, basic_lockable.
    rewrite !andb_true_iff, !compound_req_iff. tauto.
  - intros T. unfold shared_timed_lockable, shared_lockable,
      basic_shared_lockable, basic_lockable.
    rewrite !andb_true_iff, !compound_req_iff. tauto.
Qed.

(* ===================================================================== *)
(** * Clients of [concurrent_resource] ([main.cpp])                       *)
(* ===================================================================== *)

Module Client.

Section client.
Context {T : Type}.

(** The scoped blocks of [main.cpp]:
    [{ auto a = r.read_access(); ... *a ... }], which looks at the resource
    (and prints it), and [{ auto a = r.write_access(); ... }], which
    updates it in place; the update is rendered as the assignment of the
    updated value. *)
Inductive block :=
  | blk_read
  | blk_write (f : T → T).

(** The declaration that opens a block. *)
Definition enter (t : tid) (b : block) : request T :=
  match b with
  | blk_read => req_read t
  | blk_write _ => req_write t
  end.

(** The statements of a block on its accessor [obj]: what they print, and
    the world they leave. *)
Definition body (t : tid) (b : block) (obj : nat) (w : L.world T)
  : outcome (list T * L.world T) :=
  match b with
  | blk_read =>
      match L.objects w !! obj with
      | Some a => Returns ([L.load (L.detail.deref a) (L.self w)], w)
      | None => Undefined
      end
  | blk_write f =>
      match L.objects w !! obj with
      | Some a =>
          w' ← L.exec (req_assign t obj (f (L.load (L.detail.deref a) (L.self w)))) w;
          Returns ([], w')
      | None => Undefined
      end
  end.

(** A whole block: the accessor is constructed, used, and destroyed at the
    closing brace. *)
Definition run_block (t : tid) (b : block) (w : L.world T)
  : outcome (list T * L.world T) :=
  w1 ← L.exec (enter t b) w;
  ow ← body t b (L.next_obj w) w1;
  w3 ← L.exec (req_destroy t (L.next_obj w)) ow.2;
  Returns (ow.1, w3).

(** Blocks one after the other, in one thread. *)
Fixpoint run_blocks (t : tid) (bs : list block) (w : L.world T)
  : outcome (list T * L.world T) :=
  match bs with
  | [] => Returns ([], w)
  | b :: bs' =>
      ow ← run_block t b w;
      ow' ← run_blocks t bs' ow.2;
      Returns (ow.1 ++ ow'.1, ow'.2)
  end.

(** What a sequence of blocks prints and leaves in the resource. *)
Fixpoint effect (bs : list block) (x : T) : list T * T :=
  match bs with
  | [] => ([], x)
  | blk_read :: bs' => (x :: (effect bs' x).1, (effect bs' x).2)
  | blk_write f :: bs' => effect bs' (f x)
  end.

(** Where a thread stands: between two blocks, inside a block before its
    statements, or before the closing brace. *)
Inductive pc :=
  | idle
  | entered (obj : nat)
  | leaving (obj : nat).

Record thread := {
  todo : list block;
  at_pc : pc
}.

(** The wrapper shared by reference, the threads by index, and the
    output. *)
Record system := {
  shared : L.world T;
  threads : list thread;
  printed : list T
}.

Definition start (v : T) (programs : list (list block)) : system :=
  {| shared := L.init v;
     threads := (λ p, {| todo := p; at_pc := idle |}) <$> programs;
     printed := [] |}.

(** One step of thread [t]; a thread that has run all its blocks has no
    step. *)
Definition step (t : tid) (s : system) : outcome system :=
  match threads s !! t with
  | None => Undefined
  | Some th =>
      match todo th with
      | [] => Undefined
      | b :: rest =>
          match at_pc th with
          | idle =>
              w' ← L.exec (enter t b) (shared s);
              Returns {| shared := w';
                         threads := <[t := {| todo := b :: rest;
                                              at_pc := entered (L.next_obj (shared s)) |}]>
                                      (threads s);
                         printed := printed s |}
          | entered obj =>
              ow ← body t b obj (shared s);
              Returns {| shared := ow.2;
                         threads := <[t := {| todo := b :: rest;
                                              at_pc := leaving obj |}]>
                                      (threads s);
                         printed := printed s ++ ow.1 |}
          | leaving obj =>
              w' ← L.exec (req_destroy t obj) (shared s);
              Returns {| shared := w';
                         threads := <[t := {| todo := rest; at_pc := idle |}]>
                                      (threads s);
                         printed := printed s |}
          end
      end
  end.

(** A schedule names the thread that steps next. *)
Fixpoint run_schedule (sched : list tid) (s : system) : outcome system :=
  match sched with
  | [] => Returns s
  | t :: sched' => s' ← step t s; run_schedule sched' s'
  end.

(** The accessor a thread holds. *)
Definition inside (th : thread) : option nat :=
  match at_pc th with
  | idle => None
  | entered obj | leaving obj => Some obj
  end.

Definition unfinished (th : thread) : Prop := todo th ≠ [].

(** The guard and the reference a block's accessor has. *)
Definition guard_of (b : block) : flavour :=
  match b with
  | blk_read => shared_lock
  | blk_write _ => unique_lock
  end.

Definition reads (b : block) : bool :=
  match b with
  | blk_read => true
  | blk_write _ => false
  end.

(** The steps a thread still has to take: three per block, less those
    taken in the block it is in. *)
Definition work (th : thread) : nat :=
  3 * length (todo th)
  - match at_pc th with idle => 0 | entered _ => 1 | leaving _ => 2 end.

Definition total_work (s : system) : nat := sum_list (work <$> threads s).

(** The threads of [main.cpp] (lines 135-187), their loops unrolled: the
    producer's [k]-th round inserts under the key made of the counter,
    which it alone increments; the consumer prints the map and then erases
    its first entry.  The operations of the map are parameters. *)
Section main.
Variables (emplace : nat → T → T) (erase_first : T → T).

Definition producer (rounds : nat) : list block :=
  (λ k, blk_write (emplace k)) <$> seq 0 rounds.

Definition consumer (rounds : nat) : list block :=
  concat (replicate rounds [blk_read; blk_write erase_first]).

Definition main_threads (n m : nat) : list (list block) :=
  [producer n; consumer m].

End main.

End client.
Global Arguments block : clear implicits.
Global Arguments thread : clear implicits.
Global Arguments system : clear implicits.

End Client.

Module ClientFacts.
Import Client.

Section facts.
Context {T : Type}.
Implicit Types (w : L.world T) (b : block T) (s : system T).

(** The invariant of [concurrent], read on [concurrent_resource]. *)
Definition Linv w : Prop := Protocol.inv (Refinement.to_world w).

Lemma Linv_init (v : T) : Linv (L.init v).
Proof. unfold Linv. rewrite Simulation.to_world_init. apply Protocol.inv_init. Qed.

Lemma Linv_exec (r : request T) w w' :
  Linv w → L.exec r w = Returns w' → Linv w'.
Proof.
  unfold Linv. intros Hi He. eapply Protocol.inv_exec; [exact Hi|].
  by rewrite Simulation.exec_to_world, He.
Qed.

Lemma Linv_run rs : ∀ w w', Linv w → L.run rs w = Returns w' → Linv w'.
Proof.
  induction rs as [|r rs IH]; intros w w' Hi Hr; simpl in Hr.
  - by simplify_eq.
  - destruct (L.exec r w) as [w1| |] eqn:E; [|done..].
    eapply IH; [|exact Hr]. by eapply Linv_exec.
Qed.

Lemma Linv_fresh w i : Linv w → L.next_obj w ≤ i → L.objects w !! i = None.
Proof.
  intros Hi Hle. pose proof (Protocol.inv_fresh _ Hi i Hle) as H.
  cbn [Refinement.to_world C.objects] in H. rewrite lookup_fmap in H.
  by destruct (L.objects w !! i).
Qed.

Lemma Linv_lock w :
  Linv w → agrees (L.rwlock (L.self w)) (L.shared_held w) (L.exclusive_held w).
Proof.
  intros Hi. pose proof (Protocol.inv_lock _ Hi) as H.
  by rewrite Simulation.shared_held_to_world,
    Simulation.exclusive_held_to_world in H.
Qed.

(** A block run on an unlocked wrapper: it returns, prints and updates as
    [effect] says, and leaves the lock and the accessors as they were. *)
Lemma run_block_quiet t b w :
  L.rwlock (L.self w) = Unlocked → L.objects w !! L.next_obj w = None →
  run_block t b w
  = Returns ((effect [b] (L.resource (L.self w))).1,
             {| L.self := {| L.rwlock := Unlocked;
                             L.resource := (effect [b] (L.resource (L.self w))).2 |};
                L.objects := L.objects w;
                L.next_obj := S (L.next_obj w);
                L.next_hold := S (L.next_hold w);
                L.released := L.next_hold w :: L.released w |}).
Proof.
  intros Hu Hn. unfold run_block.
  destruct b as [|f]; cbn [enter L.exec].
  - unfold L.read_access, L.detail.accessor_ctor, guard_lock.
    rewrite Hu. simpl. repeat (rewrite lookup_insert_eq; simpl).
    by rewrite delete_insert_eq, delete_id.
  - unfold L.write_access, L.detail.accessor_ctor, guard_lock.
    rewrite Hu. simpl. repeat (rewrite lookup_insert_eq; simpl).
    by rewrite delete_insert_eq, delete_id.
Qed.

Lemma run_blocks_quiet t bs : ∀ w,
  L.rwlock (L.self w) = Unlocked →
  (∀ i, L.next_obj w ≤ i → L.objects w !! i = None) →
  ∃ w', run_blocks t bs w = Returns ((effect bs (L.resource (L.self w))).1, w') ∧
        L.resource (L.self w') = (effect bs (L.resource (L.self w))).2 ∧
        L.rwlock (L.self w') = Unlocked ∧
        L.objects w' = L.objects w ∧
        L.released w' = rev (seq (L.next_hold w) (length bs)) ++ L.released w.
Proof.
  induction bs as [|b bs IH]; intros w Hu Hf.
  - exists w. simpl. by split_and!.
  - cbn [run_blocks]. rewrite run_block_quiet by auto.
    cbn [mbind outcome_bind snd fst].
    match goal with
    | |- context [run_blocks t bs ?x] =>
        destruct (IH x) as (w' & Hr & Hres & Hu' & Ho & Hrel)
    end.
    { done. }
    { intros i Hi. cbn [L.objects L.next_obj] in *. apply Hf. lia. }
    rewrite Hr. exists w'.
    cbn [mbind outcome_bind snd fst L.resource L.self L.objects
         L.released L.next_hold] in *.
    split_and!; [by destruct b|by destruct b|done|done|].
    rewrite Hrel. cbn [length seq rev]. by rewrite <- app_assoc.
Qed.

(** X10. Blocks run one after the other on a wrapper nobody holds never wait:
    they print the resource as it stands at each read block, apply the
    updates of the write blocks in order, release every hold they took,
    and leave the lock free and the other accessors untouched. *)
Theorem scoped_blocks_compose rs (v : T) w t bs :
  L.run rs (L.init v) = Returns w → L.rwlock (L.self w) = Unlocked →
  ∃ w', run_blocks t bs w = Returns ((effect bs (L.resource (L.self w))).1, w') ∧
        L.resource (L.self w') = (effect bs (L.resource (L.self w))).2 ∧
        L.rwlock (L.self w') = Unlocked ∧
        L.objects w' = L.objects w ∧
        L.released w' = rev (seq (L.next_hold w) (length bs)) ++ L.released w.
Proof.
  intros Hr Hu. apply run_blocks_quiet; [done|].
  intros i. apply Linv_fresh. eapply Linv_run; [apply Linv_init|done].
Qed.

End facts.

Lemma scoped_blocks_compose_witness :
  ∃ w : L.world nat,
    run_blocks 1 [blk_write (λ _, 5); blk_read; blk_write S; blk_read]
      (L.init 0) = Returns ([5; 6], w) ∧
    L.resource (L.self w) = 6 ∧ L.released w = [3; 2; 1; 0].
Proof.
  destruct (scoped_blocks_compose [] 0 (L.init 0) 1
              [blk_write (λ _, 5); blk_read; blk_write S; blk_read]
              eq_refl eq_refl) as (w & Hr & Hres & _ & _ & Hrel).
  exists w. split; [exact Hr|]. split; [exact Hres|exact Hrel].
Defined.

End ClientFacts.

(* ===================================================================== *)
(** * Threads that use scoped blocks                                      *)
(* ===================================================================== *)

Module Threads.
Import Client ClientFacts.

Section facts.
Context {T : Type}.
Implicit Types (w : L.world T) (b : block T) (s : system T) (th : thread T).

(** Every thread inside a block holds a live accessor of the block's kind
    that owns its hold; no two threads hold the same accessor; and every
    live accessor is held by a thread. *)
Record sys_inv s : Prop := {
  si_world : Linv (shared s);
  si_inside : ∀ t th obj,
    threads s !! t = Some th → inside th = Some obj →
    ∃ b rest a, todo th = b :: rest ∧
                L.objects (shared s) !! obj = Some a ∧
                L.holds (guard_of b) a = true ∧
                ref_const (L.detail.resource a) = reads b;
  si_distinct : ∀ t t' th th' obj,
    threads s !! t = Some th → threads s !! t' = Some th' →
    inside th = Some obj → inside th' = Some obj → t = t';
  si_owner : ∀ obj a,
    L.objects (shared s) !! obj = Some a →
    ∃ t th, threads s !! t = Some th ∧ inside th = Some obj
}.

Lemma sys_inv_start (v : T) programs : sys_inv (start v programs).
Proof.
  split.
  - apply Linv_init.
  - intros t th obj Ht Hin. simpl in Ht. rewrite list_lookup_fmap in Ht.
    destruct (programs !! t); simplify_eq/=.
  - intros t t' th th' obj Ht _ Hin. simpl in Ht.
    rewrite list_lookup_fmap in Ht. destruct (programs !! t); simplify_eq/=.
  - intros obj a Ha. simpl in Ha. by rewrite lookup_empty in Ha.
Qed.

(** The accessor a block's declaration constructs. *)
Lemma enter_returns t b w w' :
  L.exec (enter t b) w = Returns w' →
  ∃ a, L.objects w' = <[L.next_obj w := a]> (L.objects w) ∧
       L.holds (guard_of b) a = true ∧
       ref_const (L.detail.resource a) = reads b.
Proof.
  destruct b as [|f]; cbn [enter L.exec].
  - unfold L.read_access, L.detail.accessor_ctor, guard_lock.
    destruct (L.rwlock (L.self w)); simpl; intros; simplify_eq;
      eexists; split_and!; done.
  - unfold L.write_access, L.detail.accessor_ctor, guard_lock.
    destruct (L.rwlock (L.self w)); simpl; intros; simplify_eq;
      eexists; split_and!; done.
Qed.

Lemma body_returns t b obj w ow :
  body t b obj w = Returns ow →
  L.objects ow.2 = L.objects w ∧ (Linv w → Linv ow.2).
Proof.
  destruct b as [|f]; cbn [body]; destruct (L.objects w !! obj) as [a|] eqn:Ha;
    try done.
  - intros; by simplify_eq.
  - destruct (L.exec _ w) as [w'| |] eqn:E; simpl; [|done..].
    intros; simplify_eq. split; [|intros; by eapply Linv_exec].
    simpl in E. rewrite Ha in E. unfold L.store in E.
    destruct (ref_const _); by simplify_eq.
Qed.

Lemma destroy_objects t obj w w' :
  L.exec (req_destroy t obj) w = Returns w' →
  L.objects w' = delete obj (L.objects w).
Proof.
  simpl. destruct (L.objects w !! obj) as [a|]; [|done].
  destruct (L.detail.accessor_dtor _ _); simpl; intros; by simplify_eq.
Qed.

Lemma lookup_replaced (ths : list (thread T)) t th0 t' th' :
  t < length ths → <[t := th0]> ths !! t' = Some th' →
  (t' = t ∧ th' = th0) ∨ (t' ≠ t ∧ ths !! t' = Some th').
Proof.
  intros Hlt H. destruct (decide (t' = t)) as [->|Hne].
  - rewrite list_lookup_insert_eq in H by done. left. by simplify_eq.
  - rewrite list_lookup_insert_ne in H by done. by right.
Qed.

(** A thread inside a block never holds an accessor above [next_obj]. *)
Lemma inside_below s t th obj :
  sys_inv s → threads s !! t = Some th → inside th = Some obj →
  obj < L.next_obj (shared s).
Proof.
  intros Hi Ht Hin.
  destruct (si_inside s Hi t th obj Ht Hin) as (b & rest & a & _ & Ha & _).
  destruct (decide (obj < L.next_obj (shared s))); [done|].
  rewrite Linv_fresh in Ha; [done|apply Hi|lia].
Qed.

(** A step that keeps the accessors and replaces a thread by one with the
    same blocks and the same accessor keeps the invariant. *)
Lemma sys_inv_same_objects s t th th' w' out :
  sys_inv s → threads s !! t = Some th →
  todo th' = todo th → inside th' = inside th →
  L.objects w' = L.objects (shared s) → Linv w' →
  sys_inv {| shared := w'; threads := <[t := th']> (threads s);
             printed := out |}.
Proof.
  intros Hi Ht Htodo Hin Ho Hw.
  assert (t < length (threads s)) as Hlt by (by eapply lookup_lt_Some).
  split; cbn [shared threads]; [done|..].
  - intros t1 th1 obj H1 Hin1. rewrite Ho.
    apply (lookup_replaced _ _ _ _ _ Hlt) in H1 as [[-> ->]|[? H1]];
      [|by eapply si_inside].
    rewrite Hin in Hin1. rewrite Htodo. by eapply si_inside.
  - intros t1 t2 th1 th2 obj H1 H2 Hin1 Hin2.
    apply (lookup_replaced _ _ _ _ _ Hlt) in H1 as [[-> ->]|[? H1]];
      apply (lookup_replaced _ _ _ _ _ Hlt) in H2 as [[-> ->]|[? H2]]; try done.
    + rewrite Hin in Hin1. by eapply (si_distinct s Hi t t2).
    + rewrite Hin in Hin2. by eapply (si_distinct s Hi t1 t).
    + by eapply (si_distinct s Hi t1 t2).
  - intros obj a Ha. rewrite Ho in Ha.
    destruct (si_owner s Hi obj a Ha) as (t1 & th1 & H1 & Hin1).
    destruct (decide (t1 = t)) as [->|Hne].
    + exists t, th'. rewrite list_lookup_insert_eq by done.
      split; [done|]. rewrite Hin. congruence.
    + exists t1, th1. by rewrite list_lookup_insert_ne.
Qed.

Lemma sys_inv_step t s s' : sys_inv s → step t s = Returns s' → sys_inv s'.
Proof.
  intros Hi Hs. unfold step in Hs.
  destruct (threads s !! t) as [th|] eqn:Ht; [|done].
  assert (t < length (threads s)) as Hlt by (by eapply lookup_lt_Some).
  destruct (todo th) as [|b rest] eqn:Htodo; [done|].
  destruct (at_pc th) as [|obj|obj] eqn:Hpc.
  - destruct (L.exec (enter t b) (shared s)) as [w'| |] eqn:E; [|done..].
    simpl in Hs. simplify_eq.
    destruct (enter_returns _ _ _ _ E) as (a & Ho & Hh & Hc).
    assert (inside th = None) as Hidle by (unfold inside; by rewrite Hpc).
    split; cbn [shared threads].
    + eapply Linv_exec; [apply Hi|done].
    + intros t1 th1 obj H1 Hin1. rewrite Ho.
      apply (lookup_replaced _ _ _ _ _ Hlt) in H1 as [[-> ->]|[? H1]].
      * cbn in Hin1. simplify_eq. exists b, rest, a.
        by rewrite lookup_insert_eq.
      * pose proof (inside_below s t1 th1 obj Hi H1 Hin1).
        rewrite lookup_insert_ne by lia. by eapply si_inside.
    + intros t1 t2 th1 th2 obj H1 H2 Hin1 Hin2.
      apply (lookup_replaced _ _ _ _ _ Hlt) in H1 as [[-> ->]|[? H1]];
        apply (lookup_replaced _ _ _ _ _ Hlt) in H2 as [[-> ->]|[? H2]]; try done.
      * cbn in Hin1. simplify_eq.
        pose proof (inside_below s t2 th2 _ Hi H2 Hin2). lia.
      * cbn in Hin2. simplify_eq.
        pose proof (inside_below s t1 th1 _ Hi H1 Hin1). lia.
      * by eapply (si_distinct s Hi t1 t2).
    + intros obj a' Ha'. rewrite Ho in Ha'.
      destruct (decide (obj = L.next_obj (shared s))) as [->|Hne].
      * eexists t, _. by rewrite list_lookup_insert_eq.
      * rewrite lookup_insert_ne in Ha' by done.
        destruct (si_owner s Hi obj a' Ha') as (t1 & th1 & H1 & Hin1).
        exists t1, th1. split; [|done].
        rewrite list_lookup_insert_ne; [done|]. intros <-. unfold tid in *. by simplify_eq.
  - destruct (body t b obj (shared s)) as [ow| |] eqn:E; [|done..].
    simpl in Hs. simplify_eq.
    destruct (body_returns _ _ _ _ _ E) as [Ho Hw].
    eapply sys_inv_same_objects; eauto.
    + unfold inside. by rewrite Hpc.
    + apply Hw, Hi.
  - destruct (L.exec (req_destroy t obj) (shared s)) as [w'| |] eqn:E;
      [|done..].
    simpl in Hs. simplify_eq.
    pose proof (destroy_objects _ _ _ _ E) as Ho.
    assert (inside th = Some obj) as Hin by (unfold inside; by rewrite Hpc).
    split; cbn [shared threads].
    + eapply Linv_exec; [apply Hi|done].
    + intros t1 th1 obj1 H1 Hin1. rewrite Ho.
      apply (lookup_replaced _ _ _ _ _ Hlt) in H1 as [[-> ->]|[Hne H1]].
      * done.
      * rewrite lookup_delete_ne; [by eapply si_inside|].
        intros <-. apply Hne. by eapply (si_distinct s Hi t1 t).
    + intros t1 t2 th1 th2 obj1 H1 H2 Hin1 Hin2.
      apply (lookup_replaced _ _ _ _ _ Hlt) in H1 as [[-> ->]|[? H1]];
        apply (lookup_replaced _ _ _ _ _ Hlt) in H2 as [[-> ->]|[? H2]]; try done.
      by eapply (si_distinct s Hi t1 t2).
    + intros obj1 a' Ha'. rewrite Ho in Ha'.
      apply lookup_delete_Some in Ha' as [Hne Ha'].
      destruct (si_owner s Hi obj1 a' Ha') as (t1 & th1 & H1 & Hin1).
      exists t1, th1. split; [|done].
      rewrite list_lookup_insert_ne; [done|]. intros <-. unfold tid in *. by simplify_eq.
Qed.

Lemma sys_inv_run sched : ∀ s s',
  sys_inv s → run_schedule sched s = Returns s' → sys_inv s'.
Proof.
  induction sched as [|t sched IH]; intros s s' Hi Hr; simpl in Hr.
  - by simplify_eq.
  - destruct (step t s) as [s1| |] eqn:E; [|done..].
    eapply IH; [|exact Hr]. by eapply sys_inv_step.
Qed.

Lemma sys_inv_reachable sched (v : T) programs s :
  run_schedule sched (start v programs) = Returns s → sys_inv s.
Proof. apply sys_inv_run, sys_inv_start. Qed.

Lemma destroy_live_returns t obj w a :
  Linv w → L.objects w !! obj = Some a →
  ∃ w', L.exec (req_destroy t obj) w = Returns w'.
Proof.
  intros Hi Ha.
  assert (C.objects (Refinement.to_world w) !! obj
          = Some (Refinement.to_accessor a)) as Ha'
    by (cbn [Refinement.to_world C.objects]; by rewrite lookup_fmap, Ha).
  destruct (destroy_gives_back _ t obj _ Hi Ha') as (w' & He & _).
  apply transfer_returns in He as (w1 & He & _). eauto.
Qed.

Lemma all_idle_unlocked s :
  sys_inv s → (∀ t th, threads s !! t = Some th → inside th = None) →
  L.objects (shared s) = ∅ ∧ L.rwlock (L.self (shared s)) = Unlocked.
Proof.
  intros Hi Hidle.
  assert (L.objects (shared s) = ∅) as He.
  { apply map_empty. intros obj.
    destruct (L.objects (shared s) !! obj) as [a|] eqn:Ha; [|done].
    destruct (si_owner s Hi obj a Ha) as (t & th & Ht & Hin).
    rewrite (Hidle t th Ht) in Hin. done. }
  split; [done|].
  pose proof (Linv_lock _ (si_world s Hi)) as Hl.
  unfold L.shared_held, L.exclusive_held in Hl.
  rewrite He, !Counting.count_if_empty in Hl.
  destruct (L.rwlock (L.self (shared s))); simpl in Hl; [done|lia..].
Qed.

(** X11. Threads that only use scoped blocks never deadlock: in every state a
    schedule can reach, if some thread has blocks left then some thread
    can take its next step. *)
Theorem scoped_threads_progress sched (v : T) programs s :
  run_schedule sched (start v programs) = Returns s →
  (∃ t th, threads s !! t = Some th ∧ unfinished th) →
  ∃ t s', step t s = Returns s'.
Proof.
  intros Hr (t0 & th0 & Ht0 & Hun). apply sys_inv_reachable in Hr.
  destruct (decide (Exists (λ th, is_Some (inside th)) (threads s)))
    as [Hex|Hnex].
  - apply Exists_exists in Hex as (th & Hel & [obj Hin]).
    apply list_elem_of_lookup in Hel as [t Ht].
    destruct (si_inside s Hr t th obj Ht Hin)
      as (b & rest & a & Htodo & Ha & Hh & Hc).
    exists t. unfold step. unfold tid in *. rewrite Ht, Htodo.
    unfold inside in Hin. destruct (at_pc th) as [|o|o]; simplify_eq.
    + destruct b as [|f]; cbn [body]; rewrite Ha; [by eexists|].
      cbn [L.exec]. rewrite Ha. unfold L.store, L.detail.deref.
      rewrite Hc. simpl. by eexists.
    + destruct (destroy_live_returns t obj _ a (si_world s Hr) Ha)
        as (w' & ->).
      simpl. by eexists.
  - assert (∀ t th, threads s !! t = Some th → inside th = None) as Hidle.
    { intros t th Ht. destruct (inside th) eqn:Hin; [|done].
      destruct Hnex. apply Exists_exists. exists th.
      split; [by eapply list_elem_of_lookup_2|by rewrite Hin]. }
    destruct (all_idle_unlocked s Hr Hidle) as [_ Hu].
    exists t0. unfold step. unfold tid in *. rewrite Ht0.
    unfold unfinished in Hun. destruct (todo th0) as [|b rest]; [done|].
    pose proof (Hidle t0 th0 Ht0) as Hin. unfold inside in Hin.
    destruct (at_pc th0); [|done..].
    destruct b as [|f]; cbn [enter L.exec].
    + unfold L.read_access, L.detail.accessor_ctor, guard_lock.
      rewrite Hu. simpl. by eexists.
    + unfold L.write_access, L.detail.accessor_ctor, guard_lock.
      rewrite Hu. simpl. by eexists.
Qed.

(** X12. Two threads are inside blocks at the same time only when both blocks
    are read blocks: a thread inside a write block is alone. *)
Theorem write_block_is_alone sched (v : T) programs s t t' th th' b b' :
  run_schedule sched (start v programs) = Returns s →
  t ≠ t' → threads s !! t = Some th → threads s !! t' = Some th' →
  is_Some (inside th) → is_Some (inside th') →
  head (todo th) = Some b → head (todo th') = Some b' →
  b = blk_read ∧ b' = blk_read.
Proof.
  intros Hr Hne Ht Ht' [obj Hin] [obj' Hin'] Hb Hb'.
  apply sys_inv_reachable in Hr.
  destruct (si_inside s Hr t th obj Ht Hin)
    as (b0 & rest & a & Htodo & Ha & Hh & _).
  destruct (si_inside s Hr t' th' obj' Ht' Hin')
    as (b0' & rest' & a' & Htodo' & Ha' & Hh' & _).
  rewrite Htodo in Hb. rewrite Htodo' in Hb'. simplify_eq/=.
  assert (obj ≠ obj') as Hobj.
  { intros <-. apply Hne. by eapply (si_distinct s Hr t t'). }
  pose proof (Linv_lock _ (si_world s Hr)) as Hl.
  unfold L.shared_held, L.exclusive_held in Hl.
  destruct b as [|f], b' as [|f']; [done|exfalso..]; cbn [guard_of] in *.
  - pose proof (Counting.count_if_lookup _ _ _ _ Ha Hh).
    pose proof (Counting.count_if_lookup _ _ _ _ Ha' Hh').
    destruct (L.rwlock (L.self (shared s))); simpl in Hl; lia.
  - pose proof (Counting.count_if_lookup _ _ _ _ Ha Hh).
    pose proof (Counting.count_if_lookup _ _ _ _ Ha' Hh').
    destruct (L.rwlock (L.self (shared s))); simpl in Hl; lia.
  - pose proof (Holders.count_if_two _ _ _ _ _ _ Hobj Ha Ha' Hh Hh').
    destruct (L.rwlock (L.self (shared s))); simpl in Hl; lia.
Qed.

(** X13. When every thread has run all its blocks, no accessor is alive, the
    lock is free, and every hold that was taken has been given back exactly
    once. *)
Theorem finished_threads_leave_nothing sched (v : T) programs s :
  run_schedule sched (start v programs) = Returns s →
  (∀ t th, threads s !! t = Some th → todo th = []) →
  L.objects (shared s) = ∅ ∧
  L.rwlock (L.self (shared s)) = Unlocked ∧
  ∀ h, h < L.next_hold (shared s) → L.times_released h (shared s) = 1.
Proof.
  intros Hr Hdone. apply sys_inv_reachable in Hr.
  assert (∀ t th, threads s !! t = Some th → inside th = None) as Hidle.
  { intros t th Ht. destruct (inside th) as [obj|] eqn:Hin; [|done].
    destruct (si_inside s Hr t th obj Ht Hin) as (b & rest & a & Htodo & _).
    rewrite (Hdone t th Ht) in Htodo. done. }
  destruct (all_idle_unlocked s Hr Hidle) as [He Hu].
  split_and!; [done..|].
  intros h Hh.
  pose proof (hold_accounting _ h (si_world s Hr)) as E.
  rewrite Simulation.owners_to_world, Simulation.times_released_to_world in E.
  cbn [Refinement.to_world C.next_hold] in E.
  rewrite decide_True in E by done.
  unfold L.owners in E. rewrite He, Counting.count_if_empty in E. lia.
Qed.

Lemma sum_list_replace (l : list nat) i x y :
  l !! i = Some x → sum_list (<[i := y]> l) + x = sum_list l + y.
Proof.
  revert i. induction l as [|z l IH]; intros [|i] H; simplify_eq/=; [lia|].
  specialize (IH i H). lia.
Qed.

Lemma step_work t s s' :
  step t s = Returns s' → S (total_work s') = total_work s.
Proof.
  unfold step, total_work, tid in *. intros Hs.
  destruct (threads s !! t) as [th|] eqn:Ht; [|done].
  assert ((work <$> threads s) !! t = Some (work th)) as Hw
    by (by rewrite list_lookup_fmap, Ht).
  destruct (todo th) as [|b rest] eqn:Htodo; [done|].
  destruct (at_pc th) eqn:Hpc;
    match type of Hs with
    | (?e ≫= _) = _ => destruct e; [|done..]
    end; simpl in Hs; simplify_eq; cbn [threads];
    rewrite list_fmap_insert;
    match goal with
    | |- context [<[t := ?y]> _] =>
        pose proof (sum_list_replace _ t _ y Hw) as E
    end;
    unfold work in *; rewrite Htodo, Hpc in E; cbn [todo at_pc length] in *;
    lia.
Qed.

(** Every step is one of the three steps of a block: a schedule that runs
    from the start has exactly as many steps as work has been done. *)
Lemma schedule_work sched : ∀ s0 s,
  run_schedule sched s0 = Returns s →
  length sched + total_work s = total_work s0.
Proof.
  induction sched as [|t sched IH]; intros s0 s Hr; simpl in Hr.
  - by simplify_eq.
  - destruct (step t s0) as [s1| |] eqn:E; [|done..]. simpl in Hr.
    apply step_work in E. apply IH in Hr. simpl. lia.
Qed.

Lemma start_work (v : T) programs :
  total_work (start v programs) = 3 * length (concat programs).
Proof.
  unfold total_work, start. cbn [threads].
  induction programs as [|p ps IH]; [done|].
  cbn [fmap list_fmap sum_list sum_list_with concat] in *.
  rewrite length_app. unfold work at 1. unfold id in *.
  cbn [todo at_pc]. lia.
Qed.

Lemma run_schedule_app sched1 sched2 s :
  run_schedule (sched1 ++ sched2) s
  = (s1 ← run_schedule sched1 s; run_schedule sched2 s1).
Proof.
  revert s. induction sched1 as [|t sched1 IH]; intros s; simpl; [done|].
  destruct (step t s); simpl; [apply IH|done..].
Qed.

(** In a state that keeps the invariant, a thread that has blocks left
    means that some thread can step. *)
Lemma progress_inv s :
  sys_inv s → (∃ t th, threads s !! t = Some th ∧ unfinished th) →
  ∃ t s', step t s = Returns s'.
Proof.
  intros Hr (t0 & th0 & Ht0 & Hun).
  destruct (decide (Exists (λ th, is_Some (inside th)) (threads s)))
    as [Hex|Hnex].
  - apply Exists_exists in Hex as (th & Hel & [obj Hin]).
    apply list_elem_of_lookup in Hel as [t Ht].
    destruct (si_inside s Hr t th obj Ht Hin)
      as (b & rest & a & Htodo & Ha & Hh & Hc).
    exists t. unfold step. unfold tid in *. rewrite Ht, Htodo.
    unfold inside in Hin. destruct (at_pc th) as [|o|o]; simplify_eq.
    + destruct b as [|f]; cbn [body]; rewrite Ha; [by eexists|].
      cbn [L.exec]. rewrite Ha. unfold L.store, L.detail.deref.
      rewrite Hc. simpl. by eexists.
    + destruct (destroy_live_returns t obj _ a (si_world s Hr) Ha)
        as (w' & ->).
      simpl. by eexists.
  - assert (∀ t th, threads s !! t = Some th → inside th = None) as Hidle.
    { intros t th Ht. destruct (inside th) eqn:Hin; [|done].
      destruct Hnex. apply Exists_exists. exists th.
      split; [by eapply list_elem_of_lookup_2|by rewrite Hin]. }
    destruct (all_idle_unlocked s Hr Hidle) as [_ Hu].
    exists t0. unfold step. unfold tid in *. rewrite Ht0.
    unfold unfinished in Hun. destruct (todo th0) as [|b rest]; [done|].
    pose proof (Hidle t0 th0 Ht0) as Hin. unfold inside in Hin.
    destruct (at_pc th0); [|done..].
    destruct b as [|f]; cbn [enter L.exec].
    + unfold L.read_access, L.detail.accessor_ctor, guard_lock.
      rewrite Hu. simpl. by eexists.
    + unfold L.write_access, L.detail.accessor_ctor, guard_lock.
      rewrite Hu. simpl. by eexists.
Qed.

Lemma sum_work_cons th (ths : list (thread T)) :
  sum_list (work <$> th :: ths) = work th + sum_list (work <$> ths).
Proof. done. Qed.

Lemma work_left (ths : list (thread T)) :
  sum_list (work <$> ths) ≠ 0 →
  ∃ t th, ths !! t = Some th ∧ unfinished th.
Proof.
  induction ths as [|th ths IH]; [done|].
  rewrite sum_work_cons. intros Hs.
  destruct (decide (work th = 0)) as [H0|H0].
  - destruct IH as (t & th' & Ht & Hun); [lia|]. by exists (S t), th'.
  - exists 0, th. split; [done|]. unfold unfinished, work in *.
    destruct (todo th); [simpl in H0; lia|done].
Qed.

Lemma no_work_left (ths : list (thread T)) t th :
  sum_list (work <$> ths) = 0 → ths !! t = Some th →
  todo th = [] ∨ at_pc th ≠ idle.
Proof.
  revert t. induction ths as [|th0 ths IH]; intros t Hs Ht; [done|].
  rewrite sum_work_cons in Hs.
  destruct t as [|t]; simplify_eq/=.
  - unfold work in Hs. destruct (todo th), (at_pc th); simpl in Hs;
      auto; lia.
  - eapply IH; [lia|done].
Qed.

(** From a state that keeps the invariant the threads can be run until no
    work is left, in exactly as many steps as there is work. *)
Lemma complete_from n : ∀ s,
  sys_inv s → total_work s = n →
  ∃ sched s', run_schedule sched s = Returns s' ∧ total_work s' = 0 ∧
              length sched = n.
Proof.
  induction n as [|n IH]; intros s Hi Hn.
  - exists [], s. by simpl.
  - destruct (progress_inv s Hi) as (t & s1 & Hs).
    { apply work_left. unfold total_work in Hn. lia. }
    pose proof (step_work _ _ _ Hs) as Hw.
    destruct (IH s1) as (sched & s' & Hr & H0 & Hlen);
      [by eapply sys_inv_step|lia|].
    exists (t :: sched), s'. simpl. rewrite Hs. simpl.
    split_and!; [done|done|lia].
Qed.

(** X14. Threads that run finitely many scoped blocks always get through:
    whatever state a schedule has reached, it can be continued to a state
    in which every thread has run all its blocks, no accessor is alive and
    the lock is free; the completed schedule has exactly three steps per
    block (construct the accessor, run the statements, destroy the
    accessor), and before that the steps taken and the work left add up to
    that number. *)
Theorem scoped_threads_complete sched (v : T) programs s :
  run_schedule sched (start v programs) = Returns s →
  length sched + total_work s = 3 * length (concat programs) ∧
  ∃ sched' s',
    run_schedule (sched ++ sched') (start v programs) = Returns s' ∧
    (∀ t th, threads s' !! t = Some th → todo th = []) ∧
    length (sched ++ sched') = 3 * length (concat programs) ∧
    L.objects (shared s') = ∅ ∧
    L.rwlock (L.self (shared s')) = Unlocked.
Proof.
  intros Hr.
  pose proof (schedule_work _ _ _ Hr) as Hw. rewrite start_work in Hw.
  split; [done|].
  pose proof (sys_inv_reachable _ _ _ _ Hr) as Hi.
  destruct (complete_from _ s Hi eq_refl) as (sched' & s' & Hr' & H0 & Hlen).
  pose proof (sys_inv_run _ _ _ Hi Hr') as Hi'.
  assert (∀ t th, threads s' !! t = Some th → inside th = None) as Hidle.
  { intros t th Ht. destruct (inside th) as [obj|] eqn:Hin; [|done].
    destruct (si_inside s' Hi' t th obj Ht Hin) as (b & rest & a & Htodo & _).
    destruct (no_work_left _ t th H0 Ht) as [Hd|Hd]; [congruence|].
    unfold total_work in H0.
    exfalso. clear -H0 Ht Htodo.
    revert t Ht. induction (threads s') as [|th0 ths IH]; intros t Ht; [done|].
    rewrite sum_work_cons in H0.
    destruct t as [|t]; simplify_eq/=.
    - unfold work in H0. rewrite Htodo in H0. simpl in H0.
      destruct (at_pc th); lia.
    - eapply IH; [lia|done]. }
  destruct (all_idle_unlocked s' Hi' Hidle) as [He Hu].
  exists sched', s'. rewrite run_schedule_app, Hr. simpl.
  split_and!; [done| |rewrite length_app; lia|done|done].
  intros t th Ht.
  destruct (no_work_left _ t th H0 Ht) as [Hd|Hd]; [done|].
  pose proof (Hidle t th Ht) as Hin. unfold inside in Hin.
  by destruct (at_pc th).
Qed.

End facts.
End Threads.

(** ** The threads of [main.cpp] on a list of numbers *)

Definition demo_threads (n m : nat) : list (list (Client.block (list nat))) :=
  Client.main_threads (λ k l, l ++ [k]) tail n m.

Ltac evaluate_schedule E s :=
  match goal with
  | |- context [Client.run_schedule ?sched ?s0] =>
      destruct (Client.run_schedule sched s0) as [s| |] eqn:E;
      [|vm_compute in E; discriminate..];
      exists s; split; [reflexivity|];
      let E' := fresh in
      pose proof E as E'; vm_compute in E'; injection E' as E'; subst s
  end.

Lemma scoped_threads_progress_witness :
  ∃ s : Client.system (list nat),
    Client.run_schedule [0; 0; 0; 1; 1; 1; 1] (Client.start [] (demo_threads 2 1))
      = Returns s ∧
    Client.step 0 s = Blocks ∧
    ∃ t s', Client.step t s = Returns s'.
Proof.
  evaluate_schedule E s. split; [vm_compute; reflexivity|].
  refine (Threads.scoped_threads_progress [0; 0; 0; 1; 1; 1; 1] []
            (demo_threads 2 1) _ E _).
  eexists 1, _. split; [reflexivity|]. discriminate.
Defined.

Lemma write_block_is_alone_witness :
  ∃ s : Client.system (list nat),
    Client.run_schedule [0; 1]
      (Client.start [] [[Client.blk_read]; [Client.blk_read; Client.blk_write tail]])
      = Returns s ∧
    Client.step 0 s ≠ Blocks ∧
    (head [Client.blk_read; Client.blk_write (@tail nat)]
       = Some Client.blk_read ∧
     @Client.blk_read (list nat) = Client.blk_read).
Proof.
  evaluate_schedule E s. split; [vm_compute; discriminate|].
  split; [reflexivity|].
  refine (proj2 (Threads.write_block_is_alone [0; 1] []
    [[Client.blk_read]; [Client.blk_read; Client.blk_write tail]] _ 0 1 _ _
    Client.blk_read Client.blk_read E (λ H, O_S 0 H) eq_refl eq_refl
    (ex_intro _ 0 eq_refl) (ex_intro _ 1 eq_refl) eq_refl eq_refl)).
Defined.

Lemma finished_threads_leave_nothing_witness :
  ∃ s : Client.system (list nat),
    Client.run_schedule [1; 1; 1; 0; 0; 0; 1; 1; 1]
      (Client.start [] (demo_threads 1 1)) = Returns s ∧
    Client.printed s = [[]] ∧
    L.resource (L.self (Client.shared s)) = [] ∧
    L.rwlock (L.self (Client.shared s)) = Unlocked ∧
    L.times_released 2 (Client.shared s) = 1.
Proof.
  evaluate_schedule E s. split; [reflexivity|]. split; [reflexivity|].
  refine ((λ H, conj (proj1 (proj2 H)) (proj2 (proj2 H) 2 _))
            (Threads.finished_threads_leave_nothing
               [1; 1; 1; 0; 0; 0; 1; 1; 1] [] (demo_threads 1 1) _ E _)).
  - simpl. lia.
  - intros [|[|t]] th H; cbn in H;
      [injection H as <-; reflexivity..|discriminate H].
Defined.

Lemma scoped_threads_complete_witness :
  ∃ s : Client.system (list nat),
    Client.run_schedule [1; 1; 1; 0] (Client.start [] (demo_threads 1 1))
      = Returns s ∧
    Client.step 1 s = Blocks ∧
    ∃ sched' s',
      Client.run_schedule ([1; 1; 1; 0] ++ sched')
        (Client.start [] (demo_threads 1 1)) = Returns s' ∧
      length ([1; 1; 1; 0] ++ sched') = 9 ∧
      L.rwlock (L.self (Client.shared s')) = Unlocked.
Proof.
  evaluate_schedule E s. split; [vm_compute; reflexivity|].
  destruct (Threads.scoped_threads_complete [1; 1; 1; 0] []
              (demo_threads 1 1) _ E)
    as (_ & sched' & s' & Hr & _ & Hlen & _ & Hu).
  exists sched', s'. split; [exact Hr|]. split; [exact Hlen|exact Hu].
Defined.
